(** * tocookie: signed session cookies of Traffic Ops

    A shallow embedding of [traffic_ops/tocookie/tocookie.go] and of the
    parts of the Go standard library it calls ([strings], [encoding/base64],
    [encoding/hex], [crypto/sha1], [crypto/hmac], [encoding/json], [time]),
    followed by the properties of [Parse], [NewRawMsg], [New] and [Refresh].

    Conventions.
    - A Go [string] and a Go [[]byte] are both [list byte].
    - An [int64] is a [Z]; the one place where the source subtracts two of
      them wraps explicitly ([wrap64]).
    - The wall clock read by [time.Now()] is an explicit argument.
    - A run-time panic is the outcome [Panic] of [Parse], and the result
      [None] of a slice expression, of [base64.WithPadding] and of the
      functions that make a token.
    - [log.Errorf] only writes to the error log and is left out. *)

From Stdlib Require Import String.
From Stdlib Require Import List ZArith Lia Bool.
From Stdlib Require Import Strings.Byte.
From Stdlib Require DecimalFacts DecimalZ.
Import ListNotations.
Local Open Scope Z_scope.

(* ================================================================= *)
(** ** Bytes and Go strings *)

Definition bytes := list byte.

Definition str (s : string) : bytes := list_byte_of_string s.
Arguments str s%_string.

Definition byteZ (b : byte) : Z := Z.of_N (Byte.to_N b).

Definition Zbyte (z : Z) : byte :=
  match Byte.of_N (Z.to_N (z mod 256)) with
  | Some b => b
  | None => x00
  end.

Definition len {A} (s : list A) : Z := Z.of_nat (length s).

Definition byte_eqb (a b : byte) : bool := Byte.eqb a b.

Fixpoint bytes_eqb (s t : bytes) : bool :=
  match s, t with
  | [], [] => true
  | a :: s', b :: t' => byte_eqb a b && bytes_eqb s' t'
  | _, _ => false
  end.

(** The double quote. *)
Definition dq : byte := x22.

(** [s[:hi]] and [s[lo:]]; [None] is the run-time panic of an index out of
    range. *)
Definition slice_to (s : bytes) (hi : Z) : option bytes :=
  if (0 <=? hi) && (hi <=? len s) then Some (firstn (Z.to_nat hi) s) else None.

Definition slice_from (s : bytes) (lo : Z) : option bytes :=
  if (0 <=? lo) && (lo <=? len s) then Some (skipn (Z.to_nat lo) s) else None.

(* ================================================================= *)
(** ** package strings *)

Module strings.

Fixpoint HasPrefix (s prefix : bytes) {struct prefix} : bool :=
  match prefix, s with
  | [], _ => true
  | p :: prefix', c :: s' => byte_eqb p c && HasPrefix s' prefix'
  | _ :: _, [] => false
  end.

(** Index of the first instance of [substr] in [s], or -1. *)
Fixpoint Index (s substr : bytes) : Z :=
  if HasPrefix s substr then 0
  else match s with
       | [] => -1
       | _ :: s' => let i := Index s' substr in if i =? -1 then -1 else i + 1
       end.

(** Index of the last instance of [substr] in [s], or -1. *)
Fixpoint LastIndex (s substr : bytes) : Z :=
  match s with
  | [] => if HasPrefix s substr then 0 else -1
  | _ :: s' =>
      let i := LastIndex s' substr in
      if i =? -1 then (if HasPrefix s substr then 0 else -1) else i + 1
  end.

End strings.

(* ================================================================= *)
(** ** package encoding/base64 *)

Module base64.

(** An encoding is its 64-character alphabet and its padding character;
    [None] is [NoPadding]. *)
Record Encoding := mkEncoding { encode : bytes; padChar : option byte }.

Definition encodeURL : bytes :=
  str "ABCDEFGHIJKLMNOPQRSTUVWXYZabcdefghijklmnopqrstuvwxyz0123456789-_".

Definition StdPadding : byte := "="%byte.

Definition URLEncoding : Encoding := mkEncoding encodeURL (Some StdPadding).

(** The 6-bit value of a character, [None] outside the alphabet. *)
Fixpoint index_of (c : byte) (alphabet : bytes) (i : Z) : option Z :=
  match alphabet with
  | [] => None
  | a :: alphabet' => if byte_eqb a c then Some i else index_of c alphabet' (i + 1)
  end.

Definition decodeMap (enc : Encoding) (c : byte) : option Z :=
  index_of c (encode enc) 0.

Definition isNewline (c : byte) : bool :=
  byte_eqb c x0a || byte_eqb c x0d.

(** [WithPadding] gives the encoding another padding character, or
    panics ([None]): with "invalid padding" on [\r] and [\n], with
    "padding contained in alphabet" on a character of the alphabet.  (A
    padding above 0xFF, the other case of a panic, is no [byte].) *)
Definition WithPadding (enc : Encoding) (padding : option byte) : option Encoding :=
  match padding with
  | None => Some (mkEncoding (encode enc) None)
  | Some p =>
      if isNewline p then None
      else match decodeMap enc p with
           | Some _ => None
           | None => Some (mkEncoding (encode enc) (Some p))
           end
  end.

(** [URLEncoding.WithPadding(NoPadding)], a call that returns. *)
Definition RawURLEncoding : Encoding :=
  match WithPadding URLEncoding None with
  | Some enc => enc
  | None => URLEncoding
  end.

(** The character of a 6-bit value. *)
Definition digit (enc : Encoding) (v : Z) : byte :=
  nth (Z.to_nat v) (encode enc) x00.

Definition padding (enc : Encoding) (n : nat) : bytes :=
  match padChar enc with
  | Some p => repeat p n
  | None => []
  end.

(** Three source bytes give four characters; a remainder of one or two
    bytes gives two or three characters and the padding, if any. *)
Fixpoint EncodeToString (enc : Encoding) (src : bytes) : bytes :=
  match src with
  | [] => []
  | [b0] =>
      let v0 := byteZ b0 in
      [digit enc (v0 / 4); digit enc (v0 mod 4 * 16)] ++ padding enc 2
  | [b0; b1] =>
      let v0 := byteZ b0 in
      let v1 := byteZ b1 in
      [digit enc (v0 / 4); digit enc (v0 mod 4 * 16 + v1 / 16);
       digit enc (v1 mod 16 * 4)] ++ padding enc 1
  | b0 :: b1 :: b2 :: rest =>
      let v0 := byteZ b0 in
      let v1 := byteZ b1 in
      let v2 := byteZ b2 in
      digit enc (v0 / 4) :: digit enc (v0 mod 4 * 16 + v1 / 16)
        :: digit enc (v1 mod 16 * 4 + v2 / 64) :: digit enc (v2 mod 64)
        :: EncodeToString enc rest
  end.

Definition isPad (enc : Encoding) (c : byte) : bool :=
  match padChar enc with
  | Some p => byte_eqb p c
  | None => false
  end.

(** Decoding of the quanta, new lines already dropped.  A character of
    the alphabet is always a digit; the padding character is recognised
    only where a digit is not.  [None] is [CorruptInputError]. *)
Fixpoint decode (enc : Encoding) (src : bytes) : option bytes :=
  match src with
  | [] => Some []
  | c0 :: c1 :: c2 :: c3 :: rest =>
      match decodeMap enc c0, decodeMap enc c1, decodeMap enc c2, decodeMap enc c3 with
      | Some d0, Some d1, Some d2, Some d3 =>
          match decode enc rest with
          | Some out =>
              Some (Zbyte (d0 * 4 + d1 / 16) :: Zbyte (d1 mod 16 * 16 + d2 / 4)
                      :: Zbyte (d2 mod 4 * 64 + d3) :: out)
          | None => None
          end
      | Some d0, Some d1, Some d2, None =>
          match rest with
          | [] => if isPad enc c3
                  then Some [Zbyte (d0 * 4 + d1 / 16); Zbyte (d1 mod 16 * 16 + d2 / 4)]
                  else None
          | _ :: _ => None
          end
      | Some d0, Some d1, None, _ =>
          match rest with
          | [] => if isPad enc c2 && isPad enc c3
                  then Some [Zbyte (d0 * 4 + d1 / 16)]
                  else None
          | _ :: _ => None
          end
      | _, _, _, _ => None
      end
  | [c0; c1; c2] =>
      match padChar enc, decodeMap enc c0, decodeMap enc c1, decodeMap enc c2 with
      | None, Some d0, Some d1, Some d2 =>
          Some [Zbyte (d0 * 4 + d1 / 16); Zbyte (d1 mod 16 * 16 + d2 / 4)]
      | _, _, _, _ => None
      end
  | [c0; c1] =>
      match padChar enc, decodeMap enc c0, decodeMap enc c1 with
      | None, Some d0, Some d1 => Some [Zbyte (d0 * 4 + d1 / 16)]
      | _, _, _ => None
      end
  | [_] => None
  end.

(** [\r] and [\n] are ignored wherever they stand. *)
Definition DecodeString (enc : Encoding) (s : bytes) : option bytes :=
  decode enc (filter (fun c => negb (isNewline c)) s).

End base64.

(* ================================================================= *)
(** ** package encoding/hex *)

Module hex.

Definition hextable : bytes := str "0123456789abcdef".

Definition EncodeToString (src : bytes) : bytes :=
  flat_map (fun b => [nth (Z.to_nat (byteZ b / 16)) hextable x00;
                      nth (Z.to_nat (byteZ b mod 16)) hextable x00]) src.

Definition fromHexChar (c : byte) : option Z :=
  let v := byteZ c in
  if (48 <=? v) && (v <=? 57) then Some (v - 48)          (* 0-9 *)
  else if (97 <=? v) && (v <=? 102) then Some (v - 97 + 10) (* a-f *)
  else if (65 <=? v) && (v <=? 70) then Some (v - 65 + 10)  (* A-F *)
  else None.

(** [None] is [ErrLength] or [InvalidByteError]. *)
Fixpoint DecodeString (s : bytes) : option bytes :=
  match s with
  | [] => Some []
  | [_] => None
  | c0 :: c1 :: rest =>
      match fromHexChar c0, fromHexChar c1, DecodeString rest with
      | Some a, Some b, Some out => Some (Zbyte (a * 16 + b) :: out)
      | _, _, _ => None
      end
  end.

End hex.

(* ================================================================= *)
(** ** package crypto/sha1 *)

Module sha1.

Definition Size : Z := 20.
Definition BlockSize : Z := 64.

(** [uint32] arithmetic. *)
Definition u32 (z : Z) : Z := z mod 2 ^ 32.
Definition add32 (x y : Z) : Z := u32 (x + y).
Definition not32 (x : Z) : Z := Z.lxor x 0xFFFFFFFF.
Definition RotateLeft32 (x k : Z) : Z :=
  u32 (Z.lor (Z.shiftl x k) (Z.shiftr x (32 - k))).

Definition K0 : Z := 0x5A827999.
Definition K1 : Z := 0x6ED9EBA1.
Definition K2 : Z := 0x8F1BBCDC.
Definition K3 : Z := 0xCA62C1D6.

Record digest := mkDigest { h0 : Z; h1 : Z; h2 : Z; h3 : Z; h4 : Z }.

Definition init : digest :=
  mkDigest 0x67452301 0xEFCDAB89 0x98BADCFE 0x10325476 0xC3D2E1F0.

(** Big-endian rendering of [v] on [n] bytes. *)
Fixpoint be_bytes (n : nat) (v : Z) : bytes :=
  match n with
  | O => []
  | S n' => Zbyte (Z.shiftr v (8 * Z.of_nat n')) :: be_bytes n' v
  end.

(** The sixteen big-endian words of a 64-byte chunk. *)
Fixpoint words (n : nat) (p : bytes) : list Z :=
  match n, p with
  | S n', a :: b :: c :: d :: p' =>
      Z.lor (Z.lor (Z.lor (Z.shiftl (byteZ a) 24) (Z.shiftl (byteZ b) 16))
                   (Z.shiftl (byteZ c) 8)) (byteZ d) :: words n' p'
  | _, _ => []
  end.

(** The round function and constant of round [i]. *)
Definition f (i : nat) (b c d : Z) : Z :=
  if (i <? 20)%nat then Z.lor (Z.land b c) (Z.land (not32 b) d)
  else if (i <? 40)%nat then Z.lxor (Z.lxor b c) d
  else if (i <? 60)%nat then Z.lor (Z.land (Z.lor b c) d) (Z.land b c)
  else Z.lxor (Z.lxor b c) d.

Definition K (i : nat) : Z :=
  if (i <? 20)%nat then K0
  else if (i <? 40)%nat then K1
  else if (i <? 60)%nat then K2
  else K3.

(** Rounds [i .. i+n-1].  [w] is the window of the message schedule: its
    head is the word of round [i], and the word sixteen rounds ahead is
    appended as the head is consumed. *)
Fixpoint rounds (n i : nat) (w : list Z) (a b c d e : Z) : digest :=
  match n with
  | O => mkDigest a b c d e
  | S n' =>
      let wi := nth 0 w 0 in
      let tmp := Z.lxor (Z.lxor (Z.lxor (nth 13 w 0) (nth 8 w 0)) (nth 2 w 0)) wi in
      let w' := tl w ++ [RotateLeft32 tmp 1] in
      let t := add32 (add32 (add32 (add32 (RotateLeft32 a 5) (f i b c d)) e) wi) (K i) in
      rounds n' (S i) w' t a (RotateLeft32 b 30) c d
  end.

(** [block] on the [n] chunks of [p]. *)
Fixpoint block (n : nat) (dig : digest) (p : bytes) : digest :=
  match n with
  | O => dig
  | S n' =>
      let r := rounds 80 0 (words 16 p) (h0 dig) (h1 dig) (h2 dig) (h3 dig) (h4 dig) in
      block n' (mkDigest (add32 (h0 dig) (h0 r)) (add32 (h1 dig) (h1 r))
                         (add32 (h2 dig) (h2 r)) (add32 (h3 dig) (h3 r))
                         (add32 (h4 dig) (h4 r)))
            (skipn 64 p)
  end.

(** Padding: 0x80, zeros up to 56 bytes modulo 64, the length in bits as
    a big-endian [uint64]. *)
Definition pad (msg : bytes) : bytes :=
  let l := len msg in
  msg ++ x80 :: repeat x00 (Z.to_nat ((55 - l) mod 64)) ++ be_bytes 8 (l * 8).

Definition Sum (msg : bytes) : bytes :=
  let p := pad msg in
  let d := block (length p / 64) init p in
  be_bytes 4 (h0 d) ++ be_bytes 4 (h1 d) ++ be_bytes 4 (h2 d)
    ++ be_bytes 4 (h3 d) ++ be_bytes 4 (h4 d).

End sha1.

(* ================================================================= *)
(** ** packages crypto/hmac and crypto/subtle *)

Module hmac.

(** The keyed hash under construction: the two padded keys and the bytes
    written so far. *)
Record HMAC := mkHMAC { opad : bytes; ipad : bytes; written : bytes }.

Definition xor_byte (c : Z) (b : byte) : byte := Zbyte (Z.lxor (byteZ b) c).

(** [hmac.New(sha1.New, key)]: a key longer than the block is hashed
    first, then padded with zeros to the block size. *)
Definition New (key : bytes) : HMAC :=
  let key' := if sha1.BlockSize <? len key then sha1.Sum key else key in
  let padded := key' ++ repeat x00 (Z.to_nat sha1.BlockSize - length key') in
  mkHMAC (map (xor_byte 0x5c) padded) (map (xor_byte 0x36) padded) [].

Definition Write (h : HMAC) (p : bytes) : HMAC :=
  mkHMAC (opad h) (ipad h) (written h ++ p).

(** [Sum(b)] appends the tag to [b]. *)
Definition Sum (h : HMAC) (b : bytes) : bytes :=
  b ++ sha1.Sum (opad h ++ sha1.Sum (ipad h ++ written h)).

(** [subtle.ConstantTimeCompare]: the lengths first, then the OR of the
    XOR of every pair of bytes. *)
Fixpoint xor_or (x y : bytes) (v : Z) : Z :=
  match x, y with
  | a :: x', b :: y' => xor_or x' y' (Z.lor v (Z.lxor (byteZ a) (byteZ b)))
  | _, _ => v
  end.

Definition ConstantTimeCompare (x y : bytes) : Z :=
  if len x =? len y then (if xor_or x y 0 =? 0 then 1 else 0) else 0.

Definition Equal (mac1 mac2 : bytes) : bool :=
  ConstantTimeCompare mac1 mac2 =? 1.

End hmac.

(* ================================================================= *)
(** ** package time *)

Definition min_int64 : Z := - 2 ^ 63.
Definition max_int64 : Z := 2 ^ 63 - 1.

(** The value of [z] as an [int64]. *)
Definition wrap64 (z : Z) : Z := (z + 2 ^ 63) mod 2 ^ 64 - 2 ^ 63.

Module time.

(** An instant: seconds since the Unix epoch and nanoseconds within the
    second. *)
Record Time := mkTime { sec : Z; nsec : Z }.

(** A [Duration] is a number of nanoseconds. *)
Definition Nanosecond : Z := 1.
Definition Second : Z := 1000000000 * Nanosecond.
Definition Minute : Z := 60 * Second.
Definition Hour : Z := 60 * Minute.

(** [t.Unix()], an [int64]. *)
Definition Unix (t : Time) : Z := wrap64 (sec t).

(** [t.Add(d)]. *)
Definition Add (t : Time) (d : Z) : Time :=
  let dsec := Z.quot d 1000000000 in
  let n := nsec t + Z.rem d 1000000000 in
  if 1000000000 <=? n then mkTime (sec t + dsec + 1) (n - 1000000000)
  else if n <? 0 then mkTime (sec t + dsec - 1) (n + 1000000000)
  else mkTime (sec t + dsec) n.

End time.

(* ================================================================= *)
(** ** package unicode/utf8 *)

Module utf8.

Definition in_range (lo hi : Z) (b : byte) : bool :=
  (lo <=? byteZ b) && (byteZ b <=? hi).

(** Width of the well-formed encoding at the head of [s]; [None] where
    [DecodeRune] answers [RuneError] with width 1 (or [s] is empty). *)
Definition rune_size (s : bytes) : option nat :=
  match s with
  | [] => None
  | b0 :: t =>
      let v := byteZ b0 in
      if v <? 0x80 then Some 1%nat
      else if (0xC2 <=? v) && (v <=? 0xDF) then
        match t with
        | b1 :: _ => if in_range 0x80 0xBF b1 then Some 2%nat else None
        | _ => None
        end
      else if (0xE0 <=? v) && (v <=? 0xEF) then
        match t with
        | b1 :: b2 :: _ =>
            let lo := if v =? 0xE0 then 0xA0 else 0x80 in
            let hi := if v =? 0xED then 0x9F else 0xBF in
            if in_range lo hi b1 && in_range 0x80 0xBF b2 then Some 3%nat else None
        | _ => None
        end
      else if (0xF0 <=? v) && (v <=? 0xF4) then
        match t with
        | b1 :: b2 :: b3 :: _ =>
            let lo := if v =? 0xF0 then 0x90 else 0x80 in
            let hi := if v =? 0xF4 then 0x8F else 0xBF in
            if in_range lo hi b1 && in_range 0x80 0xBF b2 && in_range 0x80 0xBF b3
            then Some 4%nat else None
        | _ => None
        end
      else None
  end.

Definition RuneError : Z := 0xFFFD.
Definition MaxRune : Z := 0x10FFFF.

(** [EncodeRune]: a surrogate or a value above [MaxRune] is written as
    [RuneError]. *)
Definition EncodeRune (r : Z) : bytes :=
  let r := if (r <? 0) || (MaxRune <? r) || ((0xD800 <=? r) && (r <=? 0xDFFF))
           then RuneError else r in
  if r <=? 0x7F then [Zbyte r]
  else if r <=? 0x7FF then
    [Zbyte (Z.lor 0xC0 (Z.shiftr r 6)); Zbyte (Z.lor 0x80 (Z.land r 0x3F))]
  else if r <=? 0xFFFF then
    [Zbyte (Z.lor 0xE0 (Z.shiftr r 12));
     Zbyte (Z.lor 0x80 (Z.land (Z.shiftr r 6) 0x3F));
     Zbyte (Z.lor 0x80 (Z.land r 0x3F))]
  else
    [Zbyte (Z.lor 0xF0 (Z.shiftr r 18));
     Zbyte (Z.lor 0x80 (Z.land (Z.shiftr r 12) 0x3F));
     Zbyte (Z.lor 0x80 (Z.land (Z.shiftr r 6) 0x3F));
     Zbyte (Z.lor 0x80 (Z.land r 0x3F))].

(** [s] with every byte that starts no well-formed encoding replaced by
    the encoding of [RuneError]. *)
Fixpoint ToValid (fuel : nat) (s : bytes) : bytes :=
  match fuel, s with
  | S fuel', _ :: t =>
      match rune_size s with
      | Some n => firstn n s ++ ToValid fuel' (skipn n s)
      | None => EncodeRune RuneError ++ ToValid fuel' t
      end
  | _, _ => []
  end.

Definition ToValidUTF8 (s : bytes) : bytes := ToValid (length s) s.

Fixpoint valid (fuel : nat) (s : bytes) : bool :=
  match fuel, s with
  | _, [] => true
  | S fuel', _ :: _ =>
      match rune_size s with
      | Some n => valid fuel' (skipn n s)
      | None => false
      end
  | O, _ :: _ => false
  end.

(** [utf8.Valid]. *)
Definition Valid (s : bytes) : bool := valid (length s) s.

End utf8.

(* ================================================================= *)
(** ** package strconv *)

Module strconv.

Fixpoint bytes_of_uint (u : Decimal.uint) : bytes :=
  match u with
  | Decimal.Nil => []
  | Decimal.D0 u' => x30 :: bytes_of_uint u'
  | Decimal.D1 u' => x31 :: bytes_of_uint u'
  | Decimal.D2 u' => x32 :: bytes_of_uint u'
  | Decimal.D3 u' => x33 :: bytes_of_uint u'
  | Decimal.D4 u' => x34 :: bytes_of_uint u'
  | Decimal.D5 u' => x35 :: bytes_of_uint u'
  | Decimal.D6 u' => x36 :: bytes_of_uint u'
  | Decimal.D7 u' => x37 :: bytes_of_uint u'
  | Decimal.D8 u' => x38 :: bytes_of_uint u'
  | Decimal.D9 u' => x39 :: bytes_of_uint u'
  end.

(** [FormatInt(v, 10)]. *)
Definition FormatInt (v : Z) : bytes :=
  match Z.to_int v with
  | Decimal.Pos u => bytes_of_uint u
  | Decimal.Neg u => x2d :: bytes_of_uint u
  end.

Definition isDigit (c : byte) : bool := (48 <=? byteZ c) && (byteZ c <=? 57).

Definition digit_cons (c : byte) (u : Decimal.uint) : Decimal.uint :=
  match byteZ c - 48 with
  | 0 => Decimal.D0 u
  | 1 => Decimal.D1 u
  | 2 => Decimal.D2 u
  | 3 => Decimal.D3 u
  | 4 => Decimal.D4 u
  | 5 => Decimal.D5 u
  | 6 => Decimal.D6 u
  | 7 => Decimal.D7 u
  | 8 => Decimal.D8 u
  | _ => Decimal.D9 u
  end.

Fixpoint uint_of_bytes (s : bytes) : option Decimal.uint :=
  match s with
  | [] => Some Decimal.Nil
  | c :: s' =>
      if isDigit c then option_map (digit_cons c) (uint_of_bytes s') else None
  end.

(** [ParseUint(s, 10, 64)] before the range check: [None] is [ErrSyntax]. *)
Definition parseDigits (s : bytes) : option Z :=
  match s with
  | [] => None
  | _ :: _ => option_map Z.of_uint (uint_of_bytes s)
  end.

(** [ParseInt(s, 10, 64)]: an optional sign, decimal digits, and the
    value within [int64]; [None] is [ErrSyntax] or [ErrRange]. *)
Definition ParseInt (s : bytes) : option Z :=
  match s with
  | [] => None
  | c :: t =>
      let neg := byte_eqb c x2d in
      let digits := if neg || byte_eqb c x2b then t else s in
      match parseDigits digits with
      | None => None
      | Some n =>
          let v := if neg then - n else n in
          if (min_int64 <=? v) && (v <=? max_int64) then Some v else None
      end
  end.

End strconv.

(* ================================================================= *)
(** ** The cookie *)

(** [type Cookie struct], with the JSON names [auth_data], [expires] and
    [by] of its fields. *)
Record Cookie := mkCookie {
  AuthData : bytes;
  ExpiresUnix : Z;
  By : bytes
}.

(* ================================================================= *)
(** ** package encoding/json, at the type [Cookie] *)

Module json.

(** *** Marshal *)

Definition hexdigit (v : Z) : byte := nth (Z.to_nat v) hex.hextable x00.

(** A byte below [utf8.RuneSelf], as [encodeState.string] writes it with
    HTML escaping on. *)
Definition escapeASCII (b : byte) : bytes :=
  let v := byteZ b in
  if byte_eqb b dq || byte_eqb b x5c then [x5c; b]
  else if byte_eqb b x0a then x5c :: str "n"
  else if byte_eqb b x0d then x5c :: str "r"
  else if byte_eqb b x09 then x5c :: str "t"
  else if (v <? 0x20) || byte_eqb b x3c || byte_eqb b x3e || byte_eqb b x26
  then x5c :: str "u00" ++ [hexdigit (v / 16); hexdigit (v mod 16)]
  else [b].

(** U+2028 and U+2029, which are escaped although well formed. *)
Definition lineSeparator (s : bytes) : option byte :=
  match s with
  | b0 :: b1 :: b2 :: _ =>
      if byte_eqb b0 xe2 && byte_eqb b1 x80 && (byte_eqb b2 xa8 || byte_eqb b2 xa9)
      then Some (hexdigit (byteZ b2 mod 16))
      else None
  | _ => None
  end.

Fixpoint encodeBody (fuel : nat) (s : bytes) : bytes :=
  match fuel, s with
  | S fuel', b :: t =>
      if byteZ b <? 0x80 then escapeASCII b ++ encodeBody fuel' t
      else match utf8.rune_size s with
           | None => x5c :: str "ufffd" ++ encodeBody fuel' t
           | Some n =>
               match lineSeparator s with
               | Some h => x5c :: str "u202" ++ h :: encodeBody fuel' (skipn n s)
               | None => firstn n s ++ encodeBody fuel' (skipn n s)
               end
           end
  | _, _ => []
  end.

(** A Go string as a JSON string. *)
Definition encodeString (s : bytes) : bytes :=
  dq :: encodeBody (length s) s ++ [dq].

(** The fields in the order of the struct, each under its JSON name. *)
Definition Marshal (c : Cookie) : bytes :=
  str "{" ++ dq :: str "auth_data" ++ dq :: str ":" ++ encodeString (AuthData c)
    ++ str "," ++ dq :: str "expires" ++ dq :: str ":" ++ strconv.FormatInt (ExpiresUnix c)
    ++ str "," ++ dq :: str "by" ++ dq :: str ":" ++ encodeString (By c)
    ++ str "}".

(** *** The syntax of JSON texts *)

(** A number keeps its literal; the type of the destination decides how
    it is read. *)
#[warnings="-register-all"] Inductive value :=
| JNull
| JBool (b : bool)
| JNumber (lit : bytes)
| JString (s : bytes)
| JArray (elems : list value)
| JObject (members : list (bytes * value)).

(** The outcome of reading a prefix of the input: what was read and what
    follows it, a syntax error, or not enough fuel. *)
Inductive presult (A : Type) :=
| POk (a : A) (rest : bytes)
| PSyntax
| PFuel.
Arguments POk {A} a rest.
Arguments PSyntax {A}.
Arguments PFuel {A}.

Definition pmap {A B} (g : A -> B) (r : presult A) : presult B :=
  match r with
  | POk a rest => POk (g a) rest
  | PSyntax => PSyntax
  | PFuel => PFuel
  end.

Definition isSpace (c : byte) : bool :=
  byte_eqb c x20 || byte_eqb c x09 || byte_eqb c x0d || byte_eqb c x0a.

Fixpoint skipSpace (s : bytes) : bytes :=
  match s with
  | c :: t => if isSpace c then skipSpace t else s
  | [] => []
  end.

(** The four hexadecimal digits of a [\u] escape. *)
Definition hex4 (a b c d : byte) : option Z :=
  match hex.fromHexChar a, hex.fromHexChar b, hex.fromHexChar c, hex.fromHexChar d with
  | Some va, Some vb, Some vc, Some vd => Some (((va * 16 + vb) * 16 + vc) * 16 + vd)
  | _, _, _, _ => None
  end.

(** [getu4]: the value of the [\uXXXX] at the head of [s], if one is there. *)
Definition getu4 (s : bytes) : option Z :=
  match s with
  | b :: u :: h1 :: h2 :: h3 :: h4 :: _ =>
      if byte_eqb b x5c && byte_eqb u x75 then hex4 h1 h2 h3 h4 else None
  | _ => None
  end.

Definition IsSurrogate (r : Z) : bool := (0xD800 <=? r) && (r <? 0xE000).

(** [utf16.DecodeRune]. *)
Definition utf16_DecodeRune (r1 r2 : Z) : Z :=
  if (0xD800 <=? r1) && (r1 <? 0xDC00) && (0xDC00 <=? r2) && (r2 <? 0xE000)
  then Z.lor (Z.shiftl (r1 - 0xD800) 10) (r2 - 0xDC00) + 0x10000
  else utf8.RuneError.

Definition simpleEscape (e : byte) : option byte :=
  if byte_eqb e dq || byte_eqb e x5c || byte_eqb e x2f then Some e
  else if byte_eqb e x62 then Some x08       (* \b *)
  else if byte_eqb e x66 then Some x0c       (* \f *)
  else if byte_eqb e x6e then Some x0a       (* \n *)
  else if byte_eqb e x72 then Some x0d       (* \r *)
  else if byte_eqb e x74 then Some x09       (* \t *)
  else None.

(** A string from the byte after its opening quote: the scanner's check
    and [unquote] in one pass.  A control character, an unknown escape
    or the end of the input is a syntax error; an ill-formed byte and an
    unpaired surrogate become U+FFFD. *)
Fixpoint parseString (fuel : nat) (s : bytes) : presult bytes :=
  match fuel with
  | O => PFuel
  | S fuel' =>
      match s with
      | [] => PSyntax
      | c :: t =>
          if byte_eqb c dq then POk [] t
          else if byte_eqb c x5c then
            match t with
            | [] => PSyntax
            | e :: t' =>
                if byte_eqb e x75 then
                  match t' with
                  | h1 :: h2 :: h3 :: h4 :: t'' =>
                      match hex4 h1 h2 h3 h4 with
                      | None => PSyntax
                      | Some rr =>
                          if IsSurrogate rr then
                            match getu4 t'' with
                            | Some rr1 =>
                                let dec := utf16_DecodeRune rr rr1 in
                                if dec =? utf8.RuneError
                                then pmap (app (utf8.EncodeRune utf8.RuneError))
                                          (parseString fuel' t'')
                                else pmap (app (utf8.EncodeRune dec))
                                          (parseString fuel' (skipn 6 t''))
                            | None => pmap (app (utf8.EncodeRune utf8.RuneError))
                                           (parseString fuel' t'')
                            end
                          else pmap (app (utf8.EncodeRune rr)) (parseString fuel' t'')
                      end
                  | _ => PSyntax
                  end
                else match simpleEscape e with
                     | Some b => pmap (cons b) (parseString fuel' t')
                     | None => PSyntax
                     end
            end
          else if byteZ c <? 0x20 then PSyntax
          else if byteZ c <? 0x80 then pmap (cons c) (parseString fuel' t)
          else match utf8.rune_size s with
               | Some n => pmap (app (firstn n s)) (parseString fuel' (skipn n s))
               | None => pmap (app (utf8.EncodeRune utf8.RuneError)) (parseString fuel' t)
               end
      end
  end.

Fixpoint span (p : byte -> bool) (s : bytes) : bytes * bytes :=
  match s with
  | c :: t => if p c then let (a, b) := span p t in (c :: a, b) else ([], s)
  | [] => ([], [])
  end.

(** One or more digits. *)
Definition digits1 (s : bytes) : option (bytes * bytes) :=
  match span strconv.isDigit s with
  | ([], _) => None
  | r => Some r
  end.

(** The integer part of a number: a zero, or a digit from 1 to 9 and then
    any digits. *)
Definition intPart (s : bytes) : option (bytes * bytes) :=
  match s with
  | [] => None
  | c :: t =>
      if byte_eqb c x30 then Some ([c], t)
      else if strconv.isDigit c
           then let (ds, r) := span strconv.isDigit t in Some (c :: ds, r)
           else None
  end.

(** The optional fraction: a point and one or more digits. *)
Definition fracPart (s : bytes) : option (bytes * bytes) :=
  match s with
  | d :: t =>
      if byte_eqb d x2e then
        match digits1 t with
        | Some (ds, r) => Some (d :: ds, r)
        | None => None
        end
      else Some ([], s)
  | [] => Some ([], s)
  end.

(** The optional exponent: [e] or [E], an optional sign and one or more
    digits. *)
Definition expPart (s : bytes) : option (bytes * bytes) :=
  match s with
  | e :: t =>
      if byte_eqb e x65 || byte_eqb e x45 then
        let (esign, t') :=
          match t with
          | g :: u => if byte_eqb g x2b || byte_eqb g x2d then ([g], u) else ([], t)
          | [] => ([], t)
          end in
        match digits1 t' with
        | Some (ds, r) => Some (e :: esign ++ ds, r)
        | None => None
        end
      else Some ([], s)
  | [] => Some ([], s)
  end.

(** A number literal and what follows it: an optional minus sign, the
    integer part, the fraction, the exponent. *)
Definition parseNumber (s : bytes) : option (bytes * bytes) :=
  let (sign, s1) :=
    match s with
    | c :: t => if byte_eqb c x2d then ([c], t) else ([], s)
    | [] => ([], s)
    end in
  match intPart s1 with
  | None => None
  | Some (ip, s2) =>
      match fracPart s2 with
      | None => None
      | Some (fp, s3) =>
          match expPart s3 with
          | None => None
          | Some (ep, s4) => Some (sign ++ ip ++ fp ++ ep, s4)
          end
      end
  end.

Definition literal (name : bytes) (v : value) (s : bytes) : presult value :=
  if strings.HasPrefix s name then POk v (skipn (length name) s) else PSyntax.

(** A value at the head of [s] (no leading space); the members of an
    object from its first key; the elements of an array from its first
    element. *)
Fixpoint parseValue (fuel : nat) (s : bytes) {struct fuel} : presult value :=
  match fuel with
  | O => PFuel
  | S fuel' =>
      match s with
      | [] => PSyntax
      | c :: t =>
          if byte_eqb c x7b then                         (* { *)
            match skipSpace t with
            | [] => PSyntax
            | c' :: t' =>
                if byte_eqb c' x7d then POk (JObject []) t'
                else pmap JObject (parseMembers fuel' (c' :: t'))
            end
          else if byte_eqb c x5b then                    (* [ *)
            match skipSpace t with
            | [] => PSyntax
            | c' :: t' =>
                if byte_eqb c' x5d then POk (JArray []) t'
                else pmap JArray (parseElements fuel' (c' :: t'))
            end
          else if byte_eqb c dq then pmap JString (parseString (S (length t)) t)
          else if byte_eqb c x74 then literal (str "true") (JBool true) s
          else if byte_eqb c x66 then literal (str "false") (JBool false) s
          else if byte_eqb c x6e then literal (str "null") JNull s
          else match parseNumber s with
               | Some (lit, rest) => POk (JNumber lit) rest
               | None => PSyntax
               end
      end
  end

with parseMembers (fuel : nat) (s : bytes) {struct fuel}
  : presult (list (bytes * value)) :=
  match fuel with
  | O => PFuel
  | S fuel' =>
      match s with
      | [] => PSyntax
      | q :: t =>
          if byte_eqb q dq then
            match parseString (S (length t)) t with
            | POk key r1 =>
                match skipSpace r1 with
                | [] => PSyntax
                | colon :: r2 =>
                    if byte_eqb colon x3a then
                      match parseValue fuel' (skipSpace r2) with
                      | POk v r3 =>
                          match skipSpace r3 with
                          | [] => PSyntax
                          | sep :: r4 =>
                              if byte_eqb sep x2c then
                                pmap (cons (key, v)) (parseMembers fuel' (skipSpace r4))
                              else if byte_eqb sep x7d then POk [(key, v)] r4
                              else PSyntax
                          end
                      | PSyntax => PSyntax
                      | PFuel => PFuel
                      end
                    else PSyntax
                end
            | PSyntax => PSyntax
            | PFuel => PFuel
            end
          else PSyntax
      end
  end

with parseElements (fuel : nat) (s : bytes) {struct fuel} : presult (list value) :=
  match fuel with
  | O => PFuel
  | S fuel' =>
      match parseValue fuel' s with
      | POk v r1 =>
          match skipSpace r1 with
          | [] => PSyntax
          | sep :: r2 =>
              if byte_eqb sep x2c then pmap (cons v) (parseElements fuel' (skipSpace r2))
              else if byte_eqb sep x5d then POk [v] r2
              else PSyntax
          end
      | PSyntax => PSyntax
      | PFuel => PFuel
      end
  end.

(** The whole text: one value between optional spaces.  Every recursive
    call of the parser follows the reading of at least one byte, and
    twice the length of the text is fuel enough ([parse_fuel]).  The
    bound that later releases put on the depth of nesting is left out. *)
Definition parse (data : bytes) : presult value :=
  match parseValue (2 * length data + 2) (skipSpace data) with
  | POk v rest =>
      match skipSpace rest with
      | [] => POk v []
      | _ :: _ => PSyntax
      end
  | r => r
  end.

(** *** Unmarshal *)

Inductive error := SyntaxError | UnmarshalTypeError.

Inductive field := FAuthData | FExpiresUnix | FBy.

Definition fields : list field := [FAuthData; FExpiresUnix; FBy].

Definition name (f : field) : bytes :=
  match f with
  | FAuthData => str "auth_data"
  | FExpiresUnix => str "expires"
  | FBy => str "by"
  end.

Definition isLetter (b : byte) : bool :=
  ((97 <=? byteZ b) && (byteZ b <=? 122)) || ((65 <=? byteZ b) && (byteZ b <=? 90)).

Definition lower (b : byte) : byte :=
  if (65 <=? byteZ b) && (byteZ b <=? 90) then Zbyte (byteZ b + 32) else b.

(** [bytes.EqualFold] for an ASCII name [s]: letters match without
    regard to case, [s] also matches U+017F and [k] also matches
    U+212A. *)
Fixpoint equalFold (s t : bytes) : bool :=
  match s, t with
  | [], [] => true
  | a :: s', b :: t' =>
      if byte_eqb a b || (isLetter a && byte_eqb (lower a) (lower b))
      then equalFold s' t'
      else if byte_eqb (lower a) x73 then                 (* s, U+017F *)
        match t with
        | c0 :: c1 :: t2 => byte_eqb c0 xc5 && byte_eqb c1 xbf && equalFold s' t2
        | _ => false
        end
      else if byte_eqb (lower a) x6b then                 (* k, U+212A *)
        match t with
        | c0 :: c1 :: c2 :: t3 =>
            byte_eqb c0 xe2 && byte_eqb c1 x84 && byte_eqb c2 xaa && equalFold s' t3
        | _ => false
        end
      else false
  | _, _ => false
  end.

(** The field of a key: the one of that exact name, else the first one
    whose name matches under folding. *)
Definition findField (key : bytes) : option field :=
  match find (fun f => bytes_eqb (name f) key) fields with
  | Some f => Some f
  | None => find (fun f => equalFold (name f) key) fields
  end.

(** The decoder's state: the struct being filled and the first type
    error met. *)
Definition decodeState : Type := Cookie * option error.

Definition saveError (d : decodeState) (e : error) : decodeState :=
  match snd d with
  | None => (fst d, Some e)
  | Some _ => d
  end.

(** One value into one field: [null] leaves the field as it is, a value
    of another kind is a type error. *)
Definition store (f : field) (v : value) (d : decodeState) : decodeState :=
  let c := fst d in
  match v, f with
  | JNull, _ => d
  | JString s, FAuthData => (mkCookie s (ExpiresUnix c) (By c), snd d)
  | JString s, FBy => (mkCookie (AuthData c) (ExpiresUnix c) s, snd d)
  | JNumber lit, FExpiresUnix =>
      match strconv.ParseInt lit with
      | Some n => (mkCookie (AuthData c) n (By c), snd d)
      | None => saveError d UnmarshalTypeError
      end
  | _, _ => saveError d UnmarshalTypeError
  end.

(** The members in order; a key that names no field is skipped, a key
    met again overwrites. *)
Fixpoint object (members : list (bytes * value)) (d : decodeState) : decodeState :=
  match members with
  | [] => d
  | (key, v) :: members' =>
      match findField key with
      | Some f => object members' (store f v d)
      | None => object members' d
      end
  end.

(** [json.Unmarshal(data, &c)]: the struct after the call, or the error. *)
Definition Unmarshal (data : bytes) (c : Cookie) : Cookie + error :=
  match parse data with
  | POk JNull _ => inl c
  | POk (JObject members) _ =>
      match object members (c, None) with
      | (c', None) => inl c'
      | (_, Some e) => inr e
      end
  | POk _ _ => inr UnmarshalTypeError
  | _ => inr SyntaxError
  end.

End json.

(* ================================================================= *)
(** ** package tocookie *)

Module tocookie.

Definition GeneratedByStr : bytes := str "trafficcontrol-go-tocookie".
Definition Name : bytes := str "mojolicious".
Definition DefaultDuration : Z := time.Hour.

Definition checkHmac (message messageMAC key : bytes) : bool :=
  let mac := hmac.New key in
  let mac := hmac.Write mac message in
  let expectedMAC := hmac.Sum mac [] in
  hmac.Equal messageMAC expectedMAC.

(** The errors of [Parse], one for each [fmt.Errorf] of the source:
    - [ErrNoDashes]: "malformed cookie '%s' - no dashes";
    - [ErrNoSignature]: "malformed cookie '%s' -- no signature";
    - [ErrBase64]: "error decoding base64 data: %v";
    - [ErrSignature]: "error decoding signature: %v";
    - [ErrBadSignature]: "bad signature";
    - [ErrJSON]: "error decoding base64 text '%s' to JSON: %v";
    - [ErrExpired]: "signature expired". *)
Inductive error :=
| ErrNoDashes
| ErrNoSignature
| ErrBase64
| ErrSignature
| ErrBadSignature
| ErrJSON
| ErrExpired.

(** What a call of [Parse] comes to: the cookie with a nil error, a nil
    cookie with an error, or a run-time panic. *)
Inductive outcome :=
| Ok (c : Cookie)
| Err (e : error)
| Panic.

(** A slice expression; out of range, the call panics. *)
Definition slice (r : option bytes) (k : bytes -> outcome) : outcome :=
  match r with
  | Some s => k s
  | None => Panic
  end.

(** A call that may fail; on failure, [Parse] returns the error [e]. *)
Definition try {A} (r : option A) (e : error) (k : A -> outcome) : outcome :=
  match r with
  | Some a => k a
  | None => Err e
  end.

Notation "x <- 'slice' r ;; k" := (slice r (fun x => k))
  (at level 61, r at next level, right associativity).
Notation "x <- 'try' r 'else' e ;; k" := (try r e (fun x => k))
  (at level 61, r at next level, e at next level, right associativity).

Definition dash : bytes := str "-".

Definition Parse (now : time.Time) (secret cookie : bytes) : outcome :=
  let dashPos := strings.Index cookie dash in
  if dashPos =? -1 then Err ErrNoDashes else
  let lastDashPos := strings.LastIndex cookie dash in
  if lastDashPos =? -1 then Err ErrNoDashes else
  if len cookie <? lastDashPos + 1 then Err ErrNoSignature else
  base64Txt <- slice (slice_to cookie dashPos) ;;
  txtBytes <- try (base64.DecodeString base64.RawURLEncoding base64Txt) else ErrBase64 ;;
  base64TxtSig <- slice (slice_to cookie (lastDashPos - 1)) ;;
  base64Sig <- slice (slice_from cookie (lastDashPos + 1)) ;;
  sigBytes <- try (hex.DecodeString base64Sig) else ErrSignature ;;
  if negb (checkHmac base64TxtSig sigBytes secret) then Err ErrBadSignature else
  match json.Unmarshal txtBytes (mkCookie [] 0 []) with
  | inr _ => Err ErrJSON
  | inl cookieData =>
      if wrap64 (ExpiresUnix cookieData - time.Unix now) <? 0
      then Err ErrExpired
      else Ok cookieData
  end.

(** The functions that make a token return it, or panic ([None]) where
    [WithPadding] does. *)
Definition NewRawMsg (msg key : bytes) : option bytes :=
  match base64.WithPadding base64.RawURLEncoding (Some x2d) with
  | None => None
  | Some enc =>
      let base64Msg := base64.EncodeToString enc msg in
      let mac := hmac.New key in
      let mac := hmac.Write mac base64Msg in
      let encMac := hmac.Sum mac [] in
      let base64Sig := hex.EncodeToString encMac in
      Some (base64Msg ++ str "--" ++ base64Sig)
  end.

Definition New (user : bytes) (expiration : time.Time) (key : bytes) : option bytes :=
  let cookieMsg := {| By := GeneratedByStr; AuthData := user;
                      ExpiresUnix := time.Unix expiration |} in
  let msg := json.Marshal cookieMsg in
  NewRawMsg msg key.

Definition Refresh (now : time.Time) (c : Cookie) (key : bytes) : option bytes :=
  New (AuthData c) (time.Add now DefaultDuration) key.

End tocookie.

(* ================================================================= *)
(** * The vocabulary of the statements *)

Import tocookie.

(** [s] holds the byte [c]. *)
Definition has_byte (c : byte) (s : bytes) : bool := existsb (byte_eqb c) s.

(** The unpadded URL-safe base64 text of a payload. *)
Definition raw64 (payload : bytes) : bytes :=
  base64.EncodeToString base64.RawURLEncoding payload.

(** The number of padding characters after the text of [src]. *)
Definition pad_count (src : bytes) : nat := ((3 - length src mod 3) mod 3)%nat.

(** A character of the URL-safe alphabet. *)
Definition urlsafe (c : byte) : bool :=
  match base64.decodeMap base64.RawURLEncoding c with Some _ => true | None => false end.

(** A lowercase hexadecimal digit. *)
Definition lowerhex (c : byte) : bool := existsb (byte_eqb c) hex.hextable.

(** The keyed hash of RFC 2104 over SHA-1: H(K xor opad, H(K xor ipad, text)),
    K being the key, hashed if longer than a block, padded with zeros to
    the block size. *)
Definition rfc2104_hmac_sha1 (key text : bytes) : bytes :=
  let k := if 64 <? len key then sha1.Sum key else key in
  let K := k ++ repeat x00 (64 - length k) in
  sha1.Sum (map (hmac.xor_byte 0x5c) K ++ sha1.Sum (map (hmac.xor_byte 0x36) K ++ text)).

(** The cookies of the wire format, which [Parse] is written to read:
    the URL-safe base64 text of a payload padded with [-] to a multiple of
    four characters, then [--], then the lowercase hexadecimal text of the
    HMAC-SHA1 tag of the padded text. *)
Definition text (msg : bytes) : bytes := raw64 msg ++ repeat x2d (pad_count msg).

Definition tag (msg key : bytes) : bytes :=
  hmac.Sum (hmac.Write (hmac.New key) (text msg)) [].

Definition token (msg key : bytes) : bytes :=
  text msg ++ str "--" ++ hex.EncodeToString (tag msg key).

(** [Parse(key, New(user, expiration, key))]: a panic of [New] is the
    panic of the whole. *)
Definition roundtrip (now : time.Time) (user : bytes) (expiration : time.Time)
           (key : bytes) : outcome :=
  match New user expiration key with
  | Some cookie => Parse now key cookie
  | None => Panic
  end.

(** [Parse(key, Refresh(c, key))], the token read at the time [later]. *)
Definition refreshed (now later : time.Time) (c : Cookie) (key : bytes) : outcome :=
  match Refresh now c key with
  | Some cookie => Parse later key cookie
  | None => Panic
  end.

(** What [Parse] does once the signature has been checked. *)
Definition afterSignature (now : time.Time) (txtBytes : bytes) : outcome :=
  match json.Unmarshal txtBytes (mkCookie [] 0 []) with
  | inr _ => Err ErrJSON
  | inl cookieData =>
      if wrap64 (ExpiresUnix cookieData - time.Unix now) <? 0
      then Err ErrExpired
      else Ok cookieData
  end.

(** A numeral without superfluous zeros: zero itself, or one that starts
    with another digit. *)
Definition plain (u : Decimal.uint) : Prop :=
  u = Decimal.D0 Decimal.Nil \/ (u <> Decimal.Nil /\ forall u', u <> Decimal.D0 u').

(** The members of the object that [Marshal] writes for a cookie. *)
Definition cookieMembers (c : Cookie) : list (bytes * json.value) :=
  [(str "auth_data", json.JString (utf8.ToValidUTF8 (AuthData c)));
   (str "expires", json.JNumber (strconv.FormatInt (ExpiresUnix c)));
   (str "by", json.JString (utf8.ToValidUTF8 (By c)))].

(** No key of [members] names the field [f]. *)
Definition absent (f : json.field) (members : list (bytes * json.value)) : Prop :=
  forall key v, In (key, v) members -> json.findField key <> Some f.

(** The value of a field. *)
Definition get (f : json.field) (c : Cookie) : bytes + Z :=
  match f with
  | json.FAuthData => inl (AuthData c)
  | json.FExpiresUnix => inr (ExpiresUnix c)
  | json.FBy => inl (By c)
  end.

(** A byte below 0x80 other than [~]. *)
Definition tame (b : byte) : bool := (byteZ b <? 0x80) && negb (byte_eqb b x7e).

(** A byte below 0x80 other than [>] and [~]: in no position of a group
    of three does it give the base64 digit 62. *)
Definition dashless (b : byte) : bool :=
  (byteZ b <? 0x80) && negb (byte_eqb b x3e) && negb (byte_eqb b x7e).

(** A reader that returns less than it was given. *)
Definition consumes {A} (parser : bytes -> json.presult A) : Prop :=
  forall s a rest, parser s = json.POk a rest -> (length rest < length s)%nat.

(** The bytes of [s] before its first [c]: all of [s] when it holds none. *)
Fixpoint before_first (c : byte) (s : bytes) : bytes :=
  match s with
  | [] => []
  | b :: s' => if byte_eqb c b then [] else b :: before_first c s'
  end.

(** A lowercase hexadecimal letter in upper case; any other byte as it is. *)
Definition upperhex (b : byte) : byte :=
  if (97 <=? byteZ b) && (byteZ b <=? 102) then Zbyte (byteZ b - 32) else b.


(** *** The inputs of the examples *)

Definition at_second (s : Z) : time.Time := time.mkTime s 0.

Definition alice_cookie : Cookie := mkCookie (str "alice") 2000000000 GeneratedByStr.

Definition alice_payload : bytes := json.Marshal alice_cookie.

(** The cookie of that payload under the key [s3cret]. *)
Definition alice_token : bytes :=
  str "eyJhdXRoX2RhdGEiOiJhbGljZSIsImV4cGlyZXMiOjIwMDAwMDAwMDAsImJ5IjoidHJhZmZpY2NvbnRyb2wtZ28tdG9jb29raWUifQ----adea43d1dc484ae012cd42f7854b5fb350f4d34d".

(** The payload [{"expires":2000000000}]. *)
Definition payload_expires_only : bytes :=
  str "{" ++ dq :: str "expires" ++ dq :: str ":2000000000}".

(** The cookie of that payload under the key [s3cret]. *)
Definition expires_only_token : bytes :=
  str "eyJleHBpcmVzIjoyMDAwMDAwMDAwfQ----508034a0295c5287c9d1fd61873a2582870eb7c1".

(** A record of [alice] whose expiration is the least [int64], and the
    cookie of its payload under the key [s3cret]. *)
Definition expired_cookie : Cookie := mkCookie (str "alice") min_int64 GeneratedByStr.

Definition expired_token : bytes :=
  str "eyJhdXRoX2RhdGEiOiJhbGljZSIsImV4cGlyZXMiOi05MjIzMzcyMDM2ODU0Nzc1ODA4LCJieSI6InRyYWZmaWNjb250cm9sLWdvLXRvY29va2llIn0---07c52dc0f26c38fac2714a2fdd3616cfdea8b1cb".


(** A record of [alice] under another issuer. *)
Definition foreign_cookie : Cookie := mkCookie (str "alice") 2000000000 (str "perl").

(** A key of 65 bytes, one more than the block of SHA-1. *)
Definition long_key : bytes := repeat x61 65.

(* ================================================================= *)
(** * Properties *)

(** ** Bytes *)

Lemma Zbyte_byteZ (b : byte) : Zbyte (byteZ b) = b.
Proof. destruct b; reflexivity. Qed.

Lemma byteZ_range (b : byte) : 0 <= byteZ b < 256.
Proof.
  unfold byteZ. pose proof (Byte.to_N_bounded b) as H.
  split; [apply N2Z.is_nonneg|]. lia.
Qed.

Lemma byteZ_Zbyte (z : Z) : 0 <= z < 256 -> byteZ (Zbyte z) = z.
Proof.
  intros H. unfold Zbyte, byteZ. rewrite Z.mod_small by lia.
  destruct (Byte.of_N (Z.to_N z)) as [b|] eqn:E.
  - apply Byte.to_of_N in E. rewrite E. lia.
  - apply Byte.of_N_None_iff in E. lia.
Qed.

Lemma byteZ_inj (a b : byte) : byteZ a = byteZ b -> a = b.
Proof. intros H. rewrite <- (Zbyte_byteZ a), <- (Zbyte_byteZ b), H. reflexivity. Qed.

Lemma byte_eqb_eq (a b : byte) : byte_eqb a b = true <-> a = b.
Proof.
  unfold byte_eqb. split.
  - apply Byte.byte_dec_bl.
  - apply Byte.byte_dec_lb.
Qed.

Lemma byte_eqb_refl (a : byte) : byte_eqb a a = true.
Proof. apply byte_eqb_eq. reflexivity. Qed.

Lemma byte_eqb_neq (a b : byte) : byte_eqb a b = false <-> a <> b.
Proof.
  rewrite <- byte_eqb_eq. destruct (byte_eqb a b); split; congruence.
Qed.

Lemma bytes_eqb_eq (s t : bytes) : bytes_eqb s t = true <-> s = t.
Proof.
  revert t. induction s as [|a s IH]; intros [|b t]; simpl; split; try congruence.
  - intros H. apply andb_true_iff in H as [H1 H2].
    apply byte_eqb_eq in H1. apply IH in H2. congruence.
  - intros H. injection H as -> ->. rewrite byte_eqb_refl. apply IH. reflexivity.
Qed.

Lemma len_app {A} (s t : list A) : len (s ++ t) = len s + len t.
Proof. unfold len. rewrite length_app. lia. Qed.

Lemma len_nonneg {A} (s : list A) : 0 <= len s.
Proof. unfold len. lia. Qed.

Lemma slice_to_app (s t : bytes) : slice_to (s ++ t) (len s) = Some s.
Proof.
  unfold slice_to. rewrite len_app.
  pose proof (len_nonneg s). pose proof (len_nonneg t).
  replace ((0 <=? len s) && (len s <=? len s + len t)) with true
    by (symmetry; apply andb_true_iff; split; apply Z.leb_le; lia).
  unfold len. rewrite Nat2Z.id, firstn_app, firstn_all, Nat.sub_diag. simpl.
  rewrite app_nil_r. reflexivity.
Qed.

Lemma slice_from_app (s t : bytes) : slice_from (s ++ t) (len s) = Some t.
Proof.
  unfold slice_from. rewrite len_app.
  pose proof (len_nonneg s). pose proof (len_nonneg t).
  replace ((0 <=? len s) && (len s <=? len s + len t)) with true
    by (symmetry; apply andb_true_iff; split; apply Z.leb_le; lia).
  unfold len. rewrite Nat2Z.id, skipn_app, skipn_all, Nat.sub_diag. reflexivity.
Qed.

(** ** strings.Index and strings.LastIndex of a one-byte separator *)

Lemma HasPrefix_single (c : byte) (s : bytes) :
  strings.HasPrefix s [c] = match s with b :: _ => byte_eqb c b | [] => false end.
Proof. destruct s; simpl; [reflexivity | apply andb_true_r]. Qed.

Lemma Index_single_range (c : byte) (s : bytes) :
  strings.Index s [c] = -1 \/ 0 <= strings.Index s [c] < len s.
Proof.
  induction s as [|b s IH].
  - left. reflexivity.
  - cbn [strings.Index]. rewrite HasPrefix_single.
    unfold len in *. cbn [length]. destruct (byte_eqb c b); [right; lia|].
    destruct (strings.Index s [c] =? -1) eqn:E; [left; reflexivity|].
    apply Z.eqb_neq in E. right. lia.
Qed.

Lemma Index_single_none (c : byte) (s : bytes) :
  strings.Index s [c] = -1 <-> has_byte c s = false.
Proof.
  induction s as [|b s IH].
  - simpl. tauto.
  - cbn [strings.Index has_byte existsb]. rewrite HasPrefix_single.
    fold (has_byte c s). rewrite orb_false_iff, <- IH.
    destruct (byte_eqb c b); simpl; [split; [discriminate | intros [? _]; discriminate]|].
    destruct (Index_single_range c s) as [H|H].
    + rewrite H. simpl. tauto.
    + destruct (strings.Index s [c] =? -1) eqn:E; [apply Z.eqb_eq in E; lia|].
      split; [lia | intros [_ ?]; lia].
Qed.

Lemma Index_single_app (c : byte) (s t : bytes) :
  has_byte c s = false -> strings.Index (s ++ c :: t) [c] = len s.
Proof.
  induction s as [|b s IH]; intros H.
  - cbn. rewrite byte_eqb_refl. reflexivity.
  - cbn [has_byte existsb] in H. apply orb_false_iff in H as [H1 H2].
    cbn [app strings.Index]. rewrite HasPrefix_single, H1, (IH H2).
    unfold len. cbn [length].
    destruct (Z.of_nat (length s) =? -1) eqn:E; [apply Z.eqb_eq in E|]; lia.
Qed.

Lemma LastIndex_single_range (c : byte) (s : bytes) :
  strings.LastIndex s [c] = -1 \/ 0 <= strings.LastIndex s [c] < len s.
Proof.
  induction s as [|b s IH].
  - left. reflexivity.
  - cbn [strings.LastIndex]. rewrite HasPrefix_single.
    unfold len in *. cbn [length].
    destruct (strings.LastIndex s [c] =? -1) eqn:E.
    + destruct (byte_eqb c b); [right; lia | left; reflexivity].
    + apply Z.eqb_neq in E. right. lia.
Qed.

Lemma LastIndex_single_none (c : byte) (s : bytes) :
  strings.LastIndex s [c] = -1 <-> has_byte c s = false.
Proof.
  induction s as [|b s IH].
  - simpl. tauto.
  - cbn [strings.LastIndex has_byte existsb]. rewrite HasPrefix_single.
    fold (has_byte c s). rewrite orb_false_iff, <- IH.
    destruct (LastIndex_single_range c s) as [H|H].
    + rewrite H. simpl. destruct (byte_eqb c b); simpl; split; try tauto; try lia;
        try (intros [? _]; discriminate).
    + destruct (strings.LastIndex s [c] =? -1) eqn:E; [apply Z.eqb_eq in E; lia|].
      split; [lia | intros [_ ?]; lia].
Qed.

Lemma LastIndex_single_app (c : byte) (s t : bytes) :
  has_byte c t = false -> strings.LastIndex (s ++ c :: t) [c] = len s.
Proof.
  intros H. induction s as [|b s IH].
  - cbn [app strings.LastIndex]. rewrite HasPrefix_single, byte_eqb_refl.
    apply LastIndex_single_none in H. rewrite H. reflexivity.
  - cbn [app strings.LastIndex]. rewrite IH.
    unfold len. cbn [length].
    destruct (Z.of_nat (length s) =? -1) eqn:E; [apply Z.eqb_eq in E|]; lia.
Qed.

Lemma Index_le_LastIndex (c : byte) (s : bytes) :
  strings.Index s [c] <= strings.LastIndex s [c].
Proof.
  induction s as [|b s IH].
  - simpl. lia.
  - cbn [strings.Index strings.LastIndex]. rewrite HasPrefix_single.
    pose proof (LastIndex_single_range c s) as H.
    pose proof (Index_single_range c s) as H'.
    destruct (byte_eqb c b);
      destruct (Z.eqb_spec (strings.LastIndex s [c]) (-1));
      destruct (Z.eqb_spec (strings.Index s [c]) (-1)); lia.
Qed.

(** ** encoding/base64 *)

Lemma list_ind3 {A} (P : list A -> Prop) :
  P [] -> (forall a, P [a]) -> (forall a b, P [a; b]) ->
  (forall a b c l, P l -> P (a :: b :: c :: l)) ->
  forall l, P l.
Proof.
  intros H0 H1 H2 H3.
  fix IH 1. intros [|a [|b [|c l]]].
  - exact H0.
  - apply H1.
  - apply H2.
  - apply H3, IH.
Qed.

Lemma Z_lt_64_cases (d : Z) (P : Z -> Prop) :
  0 <= d < 64 -> (forall n, (n < 64)%nat -> P (Z.of_nat n)) -> P d.
Proof.
  intros H HP. rewrite <- (Z2Nat.id d) by lia. apply HP. lia.
Qed.

Ltac below64 n :=
  do 64 (destruct n as [|n]; [reflexivity|]); lia.

Lemma decodeMap_digit (d : Z) :
  0 <= d < 64 ->
  base64.decodeMap base64.RawURLEncoding (base64.digit base64.RawURLEncoding d) = Some d.
Proof.
  intros H. apply (Z_lt_64_cases d); [exact H|]. intros n Hn. below64 n.
Qed.

Lemma isNewline_digit (d : Z) :
  0 <= d < 64 -> base64.isNewline (base64.digit base64.RawURLEncoding d) = false.
Proof.
  intros H. apply (Z_lt_64_cases d); [exact H|]. intros n Hn. below64 n.
Qed.

(** The 6-bit values of a group of three bytes, and back. *)
Lemma sextets (v0 v1 v2 : Z) :
  0 <= v0 < 256 -> 0 <= v1 < 256 -> 0 <= v2 < 256 ->
  let d0 := v0 / 4 in
  let d1 := v0 mod 4 * 16 + v1 / 16 in
  let d2 := v1 mod 16 * 4 + v2 / 64 in
  let d3 := v2 mod 64 in
  (0 <= d0 < 64 /\ 0 <= d1 < 64 /\ 0 <= d2 < 64 /\ 0 <= d3 < 64) /\
  d0 * 4 + d1 / 16 = v0 /\ d1 mod 16 * 16 + d2 / 4 = v1 /\ d2 mod 4 * 64 + d3 = v2.
Proof.
  intros H0 H1 H2. cbv zeta.
  repeat split; Z.div_mod_to_equations; lia.
Qed.

Lemma pad_count_cons3 (a b c : byte) (l : bytes) :
  pad_count (a :: b :: c :: l) = pad_count l.
Proof.
  unfold pad_count. cbn [length].
  replace (S (S (S (length l)))) with (length l + 1 * 3)%nat by lia.
  rewrite Nat.Div0.mod_add. reflexivity.
Qed.

(** With a padding character, the encoder writes the unpadded text
    followed by the padding: with [-], the text of the wire format. *)
Lemma EncodeToString_padding (p : byte) (src : bytes) :
  base64.EncodeToString (base64.mkEncoding base64.encodeURL (Some p)) src =
  base64.EncodeToString base64.RawURLEncoding src ++ repeat p (pad_count src).
Proof.
  induction src as [| a | a b | a b c l IH] using list_ind3; try reflexivity.
  rewrite pad_count_cons3. cbn [base64.EncodeToString].
  rewrite IH. reflexivity.
Qed.

(** [-] is the digit 62 of the URL alphabet, and [WithPadding] refuses it. *)
Lemma WithPadding_dash :
  base64.decodeMap base64.RawURLEncoding x2d = Some 62 /\
  base64.WithPadding base64.RawURLEncoding (Some x2d) = None.
Proof. split; reflexivity. Qed.

Lemma EncodeToString_length (src : bytes) :
  length (base64.EncodeToString base64.RawURLEncoding src) =
  ((length src / 3) * 4 + match (length src mod 3)%nat with 0 => 0 | 1 => 2 | _ => 3 end)%nat.
Proof.
  induction src as [| a | a b | a b c l IH] using list_ind3; try reflexivity.
  cbn [base64.EncodeToString length]. rewrite IH.
  replace (S (S (S (length l)))) with (length l + 1 * 3)%nat by lia.
  rewrite Nat.Div0.mod_add, Nat.div_add by lia. lia.
Qed.

Lemma urlsafe_digit (d : Z) :
  0 <= d < 64 -> urlsafe (base64.digit base64.RawURLEncoding d) = true.
Proof. intros H. unfold urlsafe. rewrite decodeMap_digit by exact H. reflexivity. Qed.

Lemma EncodeToString_urlsafe (src : bytes) :
  forallb urlsafe (base64.EncodeToString base64.RawURLEncoding src) = true.
Proof.
  induction src as [| a | a b | a b c l IH] using list_ind3.
  - reflexivity.
  - pose proof (sextets (byteZ a) 0 0 (byteZ_range a)) as S. cbv zeta in S.
    cbn [base64.EncodeToString forallb app base64.padding base64.padChar
         base64.RawURLEncoding base64.WithPadding].
    rewrite !urlsafe_digit; [reflexivity | |]; Z.div_mod_to_equations; lia.
  - pose proof (byteZ_range a). pose proof (byteZ_range b).
    cbn [base64.EncodeToString forallb app base64.padding base64.padChar
         base64.RawURLEncoding base64.WithPadding].
    rewrite !urlsafe_digit; [reflexivity | | |]; Z.div_mod_to_equations; lia.
  - pose proof (byteZ_range a). pose proof (byteZ_range b). pose proof (byteZ_range c).
    cbn [base64.EncodeToString forallb]. rewrite IH.
    rewrite !urlsafe_digit; [reflexivity | | | |]; Z.div_mod_to_equations; lia.
Qed.

Lemma urlsafe_not_newline (c : byte) : urlsafe c = true -> base64.isNewline c = false.
Proof. destruct c; intros H; try reflexivity; discriminate H. Qed.

Lemma filter_newline_urlsafe (s : bytes) :
  forallb urlsafe s = true ->
  filter (fun c => negb (base64.isNewline c)) s = s.
Proof.
  induction s as [|c s IH]; intros H; [reflexivity|].
  cbn [forallb] in H. apply andb_true_iff in H as [H1 H2].
  cbn [filter]. rewrite (urlsafe_not_newline c H1). cbn [negb].
  rewrite (IH H2). reflexivity.
Qed.

Lemma decode_EncodeToString (src : bytes) :
  base64.decode base64.RawURLEncoding (base64.EncodeToString base64.RawURLEncoding src)
  = Some src.
Proof.
  induction src as [| a | a b | a b c l IH] using list_ind3.
  - reflexivity.
  - pose proof (byteZ_range a) as Ha.
    destruct (sextets (byteZ a) 0 0 Ha) as [(R0 & R1 & _) (E0 & _)]; [lia | lia |].
    cbv zeta in *. rewrite Z.add_0_r in R1, E0.
    cbn [base64.EncodeToString app base64.padding base64.padChar
         base64.RawURLEncoding base64.WithPadding base64.decode].
    fold base64.RawURLEncoding.
    rewrite !decodeMap_digit by assumption.
    cbn [base64.padChar base64.RawURLEncoding base64.WithPadding].
    rewrite E0, Zbyte_byteZ. reflexivity.
  - pose proof (byteZ_range a) as Ha. pose proof (byteZ_range b) as Hb.
    destruct (sextets (byteZ a) (byteZ b) 0 Ha Hb) as [(R0 & R1 & R2 & _) (E0 & E1 & _)];
      [lia |].
    cbv zeta in *. rewrite Z.add_0_r in R2, E1.
    cbn [base64.EncodeToString app base64.padding base64.padChar
         base64.RawURLEncoding base64.WithPadding base64.decode].
    fold base64.RawURLEncoding.
    rewrite !decodeMap_digit by assumption.
    cbn [base64.padChar base64.RawURLEncoding base64.WithPadding].
    rewrite E0, E1, !Zbyte_byteZ. reflexivity.
  - pose proof (byteZ_range a) as Ha. pose proof (byteZ_range b) as Hb.
    pose proof (byteZ_range c) as Hc.
    destruct (sextets (byteZ a) (byteZ b) (byteZ c) Ha Hb Hc)
      as [(R0 & R1 & R2 & R3) (E0 & E1 & E2)].
    cbv zeta in *.
    cbn [base64.EncodeToString base64.decode].
    rewrite !decodeMap_digit by assumption.
    rewrite IH, E0, E1, E2, !Zbyte_byteZ. reflexivity.
Qed.

Lemma DecodeString_EncodeToString (src : bytes) :
  base64.DecodeString base64.RawURLEncoding
    (base64.EncodeToString base64.RawURLEncoding src) = Some src.
Proof.
  unfold base64.DecodeString.
  rewrite filter_newline_urlsafe by apply EncodeToString_urlsafe.
  apply decode_EncodeToString.
Qed.

(** ** encoding/hex *)

Lemma hex_DecodeString_cons (b : byte) (rest : bytes) :
  hex.DecodeString (hex.EncodeToString [b] ++ rest) =
  match hex.DecodeString rest with Some out => Some (b :: out) | None => None end.
Proof. destruct b; reflexivity. Qed.

Lemma hex_EncodeToString_cons (b : byte) (src : bytes) :
  hex.EncodeToString (b :: src) = hex.EncodeToString [b] ++ hex.EncodeToString src.
Proof. reflexivity. Qed.

Lemma hex_DecodeString_EncodeToString (src : bytes) :
  hex.DecodeString (hex.EncodeToString src) = Some src.
Proof.
  induction src as [|b src IH]; [reflexivity|].
  rewrite hex_EncodeToString_cons, hex_DecodeString_cons, IH. reflexivity.
Qed.

Lemma hex_EncodeToString_lowerhex (src : bytes) :
  forallb lowerhex (hex.EncodeToString src) = true.
Proof.
  induction src as [|b src IH]; [reflexivity|].
  rewrite hex_EncodeToString_cons, forallb_app, IH, andb_true_r.
  destruct b; reflexivity.
Qed.

Lemma hex_EncodeToString_length (src : bytes) :
  length (hex.EncodeToString src) = (2 * length src)%nat.
Proof.
  induction src as [|b src IH]; [reflexivity|].
  rewrite hex_EncodeToString_cons, length_app, IH. cbn [length hex.EncodeToString flat_map app].
  lia.
Qed.

Lemma lowerhex_not_dash (s : bytes) :
  forallb lowerhex s = true -> has_byte x2d s = false.
Proof.
  induction s as [|c s IH]; intros H; [reflexivity|].
  cbn [forallb] in H. apply andb_true_iff in H as [H1 H2].
  cbn [has_byte existsb]. fold (has_byte x2d s). rewrite (IH H2), orb_false_r.
  destruct c; try reflexivity; discriminate H1.
Qed.

(** ** crypto/sha1, crypto/hmac *)

Lemma be_bytes_length (n : nat) (v : Z) : length (sha1.be_bytes n v) = n.
Proof. induction n as [|n IH]; simpl; congruence. Qed.

Lemma sha1_Sum_length (msg : bytes) : length (sha1.Sum msg) = 20%nat.
Proof. unfold sha1.Sum. cbv zeta. rewrite !length_app, !be_bytes_length. reflexivity. Qed.

Lemma hmac_Sum_length (h : hmac.HMAC) : length (hmac.Sum h []) = 20%nat.
Proof. unfold hmac.Sum. cbn [app]. apply sha1_Sum_length. Qed.

Lemma xor_or_zero (x y : bytes) (v : Z) :
  length x = length y -> (hmac.xor_or x y v = 0 <-> v = 0 /\ x = y).
Proof.
  revert y v. induction x as [|a x IH]; intros [|b y] v L; try discriminate L.
  - simpl. tauto.
  - cbn [hmac.xor_or]. injection L as L. rewrite (IH y _ L), Z.lor_eq_0_iff.
    rewrite Z.lxor_eq_0_iff. split.
    + intros [[-> E] ->]. apply byteZ_inj in E. subst. auto.
    + intros [-> E]. injection E as -> ->. auto.
Qed.

Lemma hmac_Equal_eq (x y : bytes) : hmac.Equal x y = true <-> x = y.
Proof.
  unfold hmac.Equal, hmac.ConstantTimeCompare, len.
  destruct (Z.eqb_spec (Z.of_nat (length x)) (Z.of_nat (length y))) as [L|L].
  - apply Nat2Z.inj in L.
    destruct (Z.eqb_spec (hmac.xor_or x y 0) 0) as [E|E].
    + apply (xor_or_zero x y 0 L) in E. simpl. tauto.
    + simpl. split; [discriminate|]. intros ->. exfalso. apply E.
      apply xor_or_zero; auto.
  - simpl. split; [discriminate|]. intros ->. contradiction.
Qed.

Lemma hmac_Equal_length (x y : bytes) : length x <> length y -> hmac.Equal x y = false.
Proof.
  intros L. destruct (hmac.Equal x y) eqn:E; [|reflexivity].
  apply hmac_Equal_eq in E. subst. contradiction.
Qed.

(** ** The steps of [Parse] *)

Lemma LastIndex_lt_len (cookie : bytes) : strings.LastIndex cookie dash + 1 <= len cookie.
Proof.
  destruct (LastIndex_single_range x2d cookie) as [H|H]; change dash with [x2d];
    pose proof (len_nonneg cookie); lia.
Qed.

(** [Parse] when both dashes are found and the three slices are in range. *)
Lemma Parse_steps (now : time.Time) (secret cookie base64Txt base64TxtSig base64Sig : bytes) :
  strings.Index cookie dash <> -1 ->
  slice_to cookie (strings.Index cookie dash) = Some base64Txt ->
  slice_to cookie (strings.LastIndex cookie dash - 1) = Some base64TxtSig ->
  slice_from cookie (strings.LastIndex cookie dash + 1) = Some base64Sig ->
  Parse now secret cookie =
  match base64.DecodeString base64.RawURLEncoding base64Txt with
  | None => Err ErrBase64
  | Some txtBytes =>
      match hex.DecodeString base64Sig with
      | None => Err ErrSignature
      | Some sigBytes =>
          if checkHmac base64TxtSig sigBytes secret
          then afterSignature now txtBytes
          else Err ErrBadSignature
      end
  end.
Proof.
  intros Hi S1 S2 S3. unfold Parse. cbv zeta.
  pose proof (Index_le_LastIndex x2d cookie) as Hle. change [x2d] with dash in Hle.
  pose proof (LastIndex_lt_len cookie) as Hlt.
  destruct (Z.eqb_spec (strings.Index cookie dash) (-1)) as [?|_]; [contradiction|].
  destruct (Z.eqb_spec (strings.LastIndex cookie dash) (-1)) as [E|_].
  { destruct (Index_single_range x2d cookie) as [H|H]; change [x2d] with dash in H; lia. }
  destruct (Z.ltb_spec (len cookie) (strings.LastIndex cookie dash + 1)) as [?|_]; [lia|].
  unfold slice, try. rewrite S1.
  destruct (base64.DecodeString base64.RawURLEncoding base64Txt) as [txtBytes|];
    [|reflexivity].
  rewrite S2, S3.
  destruct (hex.DecodeString base64Sig) as [sigBytes|]; [|reflexivity].
  destruct (checkHmac base64TxtSig sigBytes secret); reflexivity.
Qed.

Lemma checkHmac_Sum (message key : bytes) :
  checkHmac message (hmac.Sum (hmac.Write (hmac.New key) message) []) key = true.
Proof. unfold checkHmac. apply hmac_Equal_eq. reflexivity. Qed.

(** The functions that make a token panic on every input. *)
Lemma NewRawMsg_None (msg key : bytes) : NewRawMsg msg key = None.
Proof.
  unfold NewRawMsg. destruct WithPadding_dash as [_ W]. rewrite W. reflexivity.
Qed.

Lemma New_None (user : bytes) (expiration : time.Time) (key : bytes) :
  New user expiration key = None.
Proof. unfold New. cbv zeta. apply NewRawMsg_None. Qed.

Lemma repeat_dash_cons (k : nat) (rest : bytes) :
  exists rest', repeat x2d k ++ x2d :: rest = x2d :: rest'.
Proof. destruct k as [|k]; cbn [repeat app]; eauto. Qed.

Lemma has_byte_app (c : byte) (s t : bytes) :
  has_byte c (s ++ t) = has_byte c s || has_byte c t.
Proof. apply existsb_app. Qed.

Lemma Index_token (msg key : bytes) :
  has_byte x2d (base64.EncodeToString base64.RawURLEncoding msg) = false ->
  strings.Index (token msg key) dash =
  len (base64.EncodeToString base64.RawURLEncoding msg).
Proof.
  intros H. unfold token, text, raw64.
  rewrite <- app_assoc.
  destruct (repeat_dash_cons (pad_count msg) (x2d :: hex.EncodeToString (tag msg key)))
    as [rest' E].
  change (str "--" ++ ?h) with (x2d :: x2d :: h). rewrite E.
  apply Index_single_app. exact H.
Qed.

Lemma LastIndex_token (msg key : bytes) :
  strings.LastIndex (token msg key) dash = len (text msg) + 1.
Proof.
  unfold token.
  change (str "--" ++ ?h) with ([x2d] ++ x2d :: h). rewrite app_assoc.
  change dash with [x2d]. rewrite LastIndex_single_app.
  - rewrite len_app. reflexivity.
  - apply lowerhex_not_dash, hex_EncodeToString_lowerhex.
Qed.

(** A cookie of the wire format whose text has no [-] among its digits
    passes the signature check of [Parse] under its key, and its payload is
    read back whole. *)
Lemma Parse_token (now : time.Time) (msg key : bytes) :
  has_byte x2d (base64.EncodeToString base64.RawURLEncoding msg) = false ->
  Parse now key (token msg key) = afterSignature now msg.
Proof.
  intros H.
  rewrite (Parse_steps now key (token msg key)
             (base64.EncodeToString base64.RawURLEncoding msg)
             (text msg) (hex.EncodeToString (tag msg key))).
  - rewrite DecodeString_EncodeToString, hex_DecodeString_EncodeToString.
    unfold tag. rewrite checkHmac_Sum. reflexivity.
  - rewrite Index_token by exact H.
    pose proof (len_nonneg (base64.EncodeToString base64.RawURLEncoding msg)). lia.
  - rewrite Index_token by exact H.
    unfold token, text, raw64. rewrite <- !app_assoc.
    apply slice_to_app.
  - rewrite LastIndex_token. replace (len (text msg) + 1 - 1) with (len (text msg)) by lia.
    unfold token. apply slice_to_app.
  - rewrite LastIndex_token. unfold token.
    change (str "--" ++ ?h) with ([x2d; x2d] ++ h). rewrite app_assoc.
    replace (len (text msg) + 1 + 1) with (len (text msg ++ [x2d; x2d]))
      by (rewrite len_app; change (len [x2d; x2d]) with 2; lia).
    apply slice_from_app.
Qed.

(** ** unicode/utf8 *)

Lemma rune_size_ascii (b : byte) (t : bytes) :
  byteZ b < 0x80 -> utf8.rune_size (b :: t) = Some 1%nat.
Proof.
  intros H. unfold utf8.rune_size.
  destruct (Z.ltb_spec (byteZ b) 0x80); [reflexivity | lia].
Qed.

(** A well-formed encoding is decided by its own bytes. *)
Lemma rune_size_app (s : bytes) (n : nat) (tail : bytes) :
  utf8.rune_size s = Some n ->
  length (firstn n s) = n /\ (0 < n)%nat /\
  utf8.rune_size (firstn n s ++ tail) = Some n.
Proof.
  unfold utf8.rune_size. destruct s as [|b0 t]; [discriminate|].
  destruct (byteZ b0 <? 128) eqn:E0.
  { intros [= <-]. cbn [firstn app length]. rewrite E0. repeat split; try reflexivity; lia. }
  destruct ((194 <=? byteZ b0) && (byteZ b0 <=? 223)) eqn:E1.
  { destruct t as [|b1 t]; [discriminate|].
    destruct (utf8.in_range 128 191 b1) eqn:R1; [|discriminate].
    intros [= <-]. cbn [firstn app length]. rewrite E0, E1, R1. repeat split; try reflexivity; lia. }
  destruct ((224 <=? byteZ b0) && (byteZ b0 <=? 239)) eqn:E2.
  { destruct t as [|b1 [|b2 t]]; try discriminate.
    destruct (utf8.in_range _ _ b1 && utf8.in_range 128 191 b2) eqn:R; [|discriminate].
    intros [= <-]. cbn [firstn app length]. rewrite E0, E1, E2, R. repeat split; try reflexivity; lia. }
  destruct ((240 <=? byteZ b0) && (byteZ b0 <=? 244)) eqn:E3; [|discriminate].
  destruct t as [|b1 [|b2 [|b3 t]]]; try discriminate.
  destruct (utf8.in_range _ _ b1 && utf8.in_range 128 191 b2 && utf8.in_range 128 191 b3)
    eqn:R; [|discriminate].
  intros [= <-]. cbn [firstn app length]. rewrite E0, E1, E2, E3, R. repeat split; try reflexivity; lia.
Qed.

Lemma rune_size_le (s : bytes) (n : nat) :
  utf8.rune_size s = Some n -> (0 < n <= length s)%nat.
Proof.
  intros H. destruct (rune_size_app s n [] H) as (L & P & _).
  split; [exact P|]. rewrite <- L. rewrite length_firstn. lia.
Qed.

Lemma ToValid_valid (n : nat) (s : bytes) :
  utf8.valid n s = true -> utf8.ToValid n s = s.
Proof.
  revert s. induction n as [|n IH]; intros s H.
  - destruct s; [reflexivity | discriminate H].
  - destruct s as [|b t]; [reflexivity|].
    cbn [utf8.valid utf8.ToValid] in *.
    destruct (utf8.rune_size (b :: t)) as [k|]; [|discriminate H].
    rewrite (IH _ H). apply firstn_skipn.
Qed.

Lemma ToValidUTF8_Valid (s : bytes) : utf8.Valid s = true -> utf8.ToValidUTF8 s = s.
Proof. apply ToValid_valid. Qed.

(** ** encoding/json: strings *)

Lemma high_byte_tests (c : byte) :
  0x80 <= byteZ c ->
  byte_eqb c dq = false /\ byte_eqb c x5c = false /\
  (byteZ c <? 0x20) = false /\ (byteZ c <? 0x80) = false.
Proof.
  intros H. repeat split.
  - apply byte_eqb_neq. intros ->. cbv in H. congruence.
  - apply byte_eqb_neq. intros ->. cbv in H. congruence.
  - apply Z.ltb_ge. lia.
  - apply Z.ltb_ge. lia.
Qed.

(** The reader steps over what the writer wrote for one ASCII byte. *)
Lemma parseString_escapeASCII (b : byte) (fuel : nat) (tail : bytes) :
  byteZ b < 0x80 ->
  json.parseString (S fuel) (json.escapeASCII b ++ tail) =
  json.pmap (cons b) (json.parseString fuel tail).
Proof.
  destruct b; intros H; try (exfalso; cbv in H; congruence); reflexivity.
Qed.

Lemma parseString_replacement (fuel : nat) (tail : bytes) :
  json.parseString (S fuel) (x5c :: str "ufffd" ++ tail) =
  json.pmap (app (utf8.EncodeRune utf8.RuneError)) (json.parseString fuel tail).
Proof. reflexivity. Qed.

Lemma lineSeparator_inv (s : bytes) (h : byte) :
  json.lineSeparator s = Some h ->
  exists b2 t, s = xe2 :: x80 :: b2 :: t /\
               ((b2 = xa8 /\ h = x38) \/ (b2 = xa9 /\ h = x39)).
Proof.
  unfold json.lineSeparator. destruct s as [|b0 [|b1 [|b2 t]]]; try discriminate.
  destruct (byte_eqb b0 xe2) eqn:E0; [|discriminate].
  destruct (byte_eqb b1 x80) eqn:E1; [|discriminate].
  apply byte_eqb_eq in E0, E1. subst.
  destruct (byte_eqb b2 xa8) eqn:E2.
  - apply byte_eqb_eq in E2. subst. intros [= <-]. eauto 6.
  - destruct (byte_eqb b2 xa9) eqn:E3; [|discriminate].
    apply byte_eqb_eq in E3. subst. intros [= <-]. eauto 6.
Qed.

Lemma parseString_rune (s : bytes) (n : nat) (fuel : nat) (tail : bytes) :
  utf8.rune_size s = Some n ->
  (forall b t, s = b :: t -> 0x80 <= byteZ b) ->
  json.parseString (S fuel) (firstn n s ++ tail) =
  json.pmap (app (firstn n s)) (json.parseString fuel tail).
Proof.
  intros R Hb. destruct (rune_size_app s n tail R) as (L & P & R').
  destruct s as [|b t]; [discriminate R|].
  destruct n as [|n]; [lia|].
  cbn [firstn app] in *.
  destruct (high_byte_tests b (Hb b t eq_refl)) as (T1 & T2 & T3 & T4).
  cbn [json.parseString]. rewrite T1, T2, T3, T4, R'.
  replace (firstn (S n) (b :: firstn n t ++ tail)) with (b :: firstn n t).
  2:{ cbn [firstn]. f_equal. injection L as L.
      rewrite firstn_app, L, Nat.sub_diag, firstn_O, app_nil_r.
      rewrite firstn_firstn, Nat.min_id. reflexivity. }
  replace (skipn (S n) (b :: firstn n t ++ tail)) with tail.
  2:{ cbn [skipn]. injection L as L.
      rewrite skipn_app, L, Nat.sub_diag, skipn_O.
      rewrite skipn_all2 by lia. reflexivity. }
  reflexivity.
Qed.

Lemma escapeASCII_length (b : byte) : (0 < length (json.escapeASCII b))%nat.
Proof. destruct b; cbv; lia. Qed.

(** Reading back the body of a string that [encodeState.string] wrote
    gives the string coerced to valid UTF-8. *)
Lemma parseString_encodeBody (n : nat) :
  forall (s rest : bytes) (fuel : nat),
    (length (json.encodeBody n s) < fuel)%nat ->
    json.parseString fuel (json.encodeBody n s ++ dq :: rest) =
    json.POk (utf8.ToValid n s) rest.
Proof.
  induction n as [|n IH]; intros s rest fuel Hf.
  - destruct fuel as [|fuel]; [cbn in Hf; lia|]. destruct s; reflexivity.
  - destruct fuel as [|fuel]; [lia|].
    destruct s as [|b t]; [reflexivity|].
    cbn [json.encodeBody utf8.ToValid] in *.
    destruct (Z.ltb_spec (byteZ b) 0x80) as [Hb|Hb].
    + rewrite (rune_size_ascii b t Hb). cbn [firstn skipn app].
      rewrite <- app_assoc, (parseString_escapeASCII b fuel _ Hb).
      rewrite IH; [reflexivity|].
      rewrite length_app in Hf. pose proof (escapeASCII_length b). lia.
    + destruct (utf8.rune_size (b :: t)) as [k|] eqn:R.
      * destruct (json.lineSeparator (b :: t)) as [h|] eqn:LS.
        -- apply lineSeparator_inv in LS as (b2 & t' & E & Hh).
           injection E as -> ->.
           assert (k = 3%nat) as ->.
           { destruct Hh as [[-> _]|[-> _]]; cbv in R; congruence. }
           cbn [skipn firstn] in *.
           assert (Hf' : (length (json.encodeBody n t') < fuel)%nat).
           { cbn [length app str list_byte_of_string] in Hf. cbn in Hf. lia. }
           destruct Hh as [[-> ->]|[-> ->]].
           ++ change (json.parseString (S fuel)
                        ((x5c :: str "u202" ++ x38 :: json.encodeBody n t') ++ dq :: rest))
                with (json.pmap (app [xe2; x80; xa8])
                        (json.parseString fuel (json.encodeBody n t' ++ dq :: rest))).
              rewrite (IH _ _ _ Hf'). reflexivity.
           ++ change (json.parseString (S fuel)
                        ((x5c :: str "u202" ++ x39 :: json.encodeBody n t') ++ dq :: rest))
                with (json.pmap (app [xe2; x80; xa9])
                        (json.parseString fuel (json.encodeBody n t' ++ dq :: rest))).
              rewrite (IH _ _ _ Hf'). reflexivity.
        -- rewrite <- app_assoc.
           rewrite (parseString_rune (b :: t) k fuel _ R).
           2:{ intros b' t' [= <- <-]. lia. }
           rewrite IH; [reflexivity|].
           rewrite length_app in Hf.
           destruct (rune_size_app (b :: t) k [] R) as (L & P & _). lia.
      * change ((x5c :: str "ufffd" ++ json.encodeBody n t) ++ dq :: rest)
          with (x5c :: str "ufffd" ++ (json.encodeBody n t ++ dq :: rest)).
        rewrite parseString_replacement.
        rewrite IH; [reflexivity|]. cbn in Hf. lia.
Qed.

Lemma parseString_encodeString (s rest : bytes) :
  let t := json.encodeBody (length s) s ++ dq :: rest in
  json.parseString (S (length t)) t = json.POk (utf8.ToValidUTF8 s) rest.
Proof.
  cbv zeta. apply parseString_encodeBody. rewrite length_app. lia.
Qed.

(** ** strconv *)

Lemma to_int_norm (z : Z) : Decimal.norm (Z.to_int z) = Z.to_int z.
Proof. rewrite <- (DecimalZ.of_to z) at 2. symmetry. apply DecimalZ.to_of. Qed.

Lemma to_int_Pos_plain (z : Z) (u : Decimal.uint) : Z.to_int z = Decimal.Pos u -> plain u.
Proof.
  intros E. pose proof (to_int_norm z) as N. rewrite E in N. cbn [Decimal.norm] in N.
  injection N as N. unfold Decimal.unorm in N.
  destruct (Decimal.nzhead u) eqn:Hz; try (left; congruence);
    right; rewrite <- N, <- Hz; (split; [congruence | apply DecimalFacts.nzhead_nonzero]).
Qed.

Lemma to_int_Neg_plain (z : Z) (u : Decimal.uint) :
  Z.to_int z = Decimal.Neg u -> u <> Decimal.Nil /\ forall u', u <> Decimal.D0 u'.
Proof.
  intros E. pose proof (to_int_norm z) as N. rewrite E in N. cbn [Decimal.norm] in N.
  destruct (Decimal.nzhead u) eqn:Hz; try discriminate N;
    injection N as N; rewrite <- N, <- Hz; (split; [congruence | apply DecimalFacts.nzhead_nonzero]).
Qed.

Lemma uint_of_bytes_of_uint (u : Decimal.uint) :
  strconv.uint_of_bytes (strconv.bytes_of_uint u) = Some u.
Proof.
  induction u; cbn [strconv.bytes_of_uint strconv.uint_of_bytes]; [reflexivity | ..];
    rewrite IHu; reflexivity.
Qed.

Lemma bytes_of_uint_digits (u : Decimal.uint) :
  forallb strconv.isDigit (strconv.bytes_of_uint u) = true.
Proof. induction u; cbn [strconv.bytes_of_uint forallb]; try rewrite IHu; reflexivity. Qed.

Lemma parseDigits_bytes_of_uint (u : Decimal.uint) :
  u <> Decimal.Nil ->
  strconv.parseDigits (strconv.bytes_of_uint u) = Some (Z.of_uint u).
Proof.
  intros H. unfold strconv.parseDigits. rewrite uint_of_bytes_of_uint.
  destruct u; [contradiction | ..]; reflexivity.
Qed.

Lemma plain_nonnil (u : Decimal.uint) : plain u -> u <> Decimal.Nil.
Proof. intros [->|[H _]]; [discriminate | exact H]. Qed.

Lemma ParseInt_unsigned (c : byte) (t : bytes) :
  strconv.isDigit c = true ->
  strconv.ParseInt (c :: t) =
  match strconv.parseDigits (c :: t) with
  | None => None
  | Some n => if (min_int64 <=? n) && (n <=? max_int64) then Some n else None
  end.
Proof. destruct c; intros H; try discriminate H; reflexivity. Qed.

Lemma ParseInt_digits (u : Decimal.uint) :
  u <> Decimal.Nil ->
  strconv.ParseInt (strconv.bytes_of_uint u) =
  if (min_int64 <=? Z.of_uint u) && (Z.of_uint u <=? max_int64)
  then Some (Z.of_uint u) else None.
Proof.
  intros H. pose proof (parseDigits_bytes_of_uint u H) as P.
  pose proof (bytes_of_uint_digits u) as D.
  destruct (strconv.bytes_of_uint u) as [|c t] eqn:E.
  - destruct u; [contradiction | ..]; discriminate E.
  - cbn [forallb] in D. apply andb_true_iff in D as [D _].
    rewrite (ParseInt_unsigned c t D), P. reflexivity.
Qed.

(** [ParseInt] reads back what [FormatInt] wrote of an [int64]. *)
Lemma ParseInt_FormatInt (v : Z) :
  min_int64 <= v <= max_int64 -> strconv.ParseInt (strconv.FormatInt v) = Some v.
Proof.
  intros R. unfold strconv.FormatInt.
  pose proof (DecimalZ.of_to v) as OT.
  destruct (Z.to_int v) as [u|u] eqn:E.
  - apply to_int_Pos_plain, plain_nonnil in E.
    rewrite (ParseInt_digits u E). cbn [Z.of_int] in OT. rewrite OT.
    destruct (Z.leb_spec min_int64 v); [|lia].
    destruct (Z.leb_spec v max_int64); [|lia]. reflexivity.
  - apply to_int_Neg_plain in E as [E _].
    unfold strconv.ParseInt. change (byte_eqb x2d x2d) with true. cbn [orb].
    rewrite (parseDigits_bytes_of_uint u E). cbn [Z.of_int] in OT. rewrite OT.
    destruct (Z.leb_spec min_int64 v); [|lia].
    destruct (Z.leb_spec v max_int64); [|lia]. reflexivity.
Qed.

(** ** encoding/json: numbers *)

Lemma span_digits (ds rest : bytes) :
  forallb strconv.isDigit ds = true ->
  json.span strconv.isDigit (ds ++ x2c :: rest) = (ds, x2c :: rest).
Proof.
  induction ds as [|d ds IH]; intros H; [reflexivity|].
  cbn [forallb] in H. apply andb_true_iff in H as [H1 H2].
  cbn [app json.span]. rewrite H1, (IH H2). reflexivity.
Qed.

Lemma intPart_nonzero (c : byte) (t : bytes) :
  strconv.isDigit c = true -> c <> x30 ->
  json.intPart (c :: t) = let (ds, r) := json.span strconv.isDigit t in Some (c :: ds, r).
Proof. destruct c; intros H N; try discriminate H; try contradiction; reflexivity. Qed.

Lemma intPart_digits (u : Decimal.uint) (rest : bytes) :
  plain u ->
  json.intPart (strconv.bytes_of_uint u ++ x2c :: rest) =
  Some (strconv.bytes_of_uint u, x2c :: rest).
Proof.
  intros [->|[Hn Hz]]; [reflexivity|].
  pose proof (bytes_of_uint_digits u) as D.
  destruct u; [contradiction | exfalso; eapply Hz; reflexivity | ..];
    cbn [strconv.bytes_of_uint forallb app] in *;
    (rewrite intPart_nonzero; [| reflexivity | discriminate]);
    rewrite span_digits by exact D; reflexivity.
Qed.

Lemma fracPart_comma (rest : bytes) :
  json.fracPart (x2c :: rest) = Some ([], x2c :: rest).
Proof. reflexivity. Qed.

Lemma expPart_comma (rest : bytes) :
  json.expPart (x2c :: rest) = Some ([], x2c :: rest).
Proof. reflexivity. Qed.

Lemma parseNumber_unsigned (c : byte) (t : bytes) :
  strconv.isDigit c = true ->
  json.parseNumber (c :: t) =
  match json.intPart (c :: t) with
  | None => None
  | Some (ip, s2) =>
      match json.fracPart s2 with
      | None => None
      | Some (fp, s3) =>
          match json.expPart s3 with
          | None => None
          | Some (ep, s4) => Some (ip ++ fp ++ ep, s4)
          end
      end
  end.
Proof. destruct c; intros H; try discriminate H; reflexivity. Qed.

Lemma parseNumber_digits (u : Decimal.uint) (rest : bytes) :
  plain u ->
  json.parseNumber (strconv.bytes_of_uint u ++ x2c :: rest) =
  Some (strconv.bytes_of_uint u, x2c :: rest).
Proof.
  intros P. pose proof (intPart_digits u rest P) as I.
  pose proof (bytes_of_uint_digits u) as D.
  destruct (strconv.bytes_of_uint u) as [|c t] eqn:E.
  - apply plain_nonnil in P. destruct u; [contradiction | ..]; discriminate E.
  - cbn [forallb] in D. apply andb_true_iff in D as [D _].
    cbn [app] in *. rewrite (parseNumber_unsigned c _ D), I.
    rewrite fracPart_comma, expPart_comma, !List.app_nil_r. reflexivity.
Qed.

Lemma parseNumber_minus (t : bytes) :
  json.parseNumber (x2d :: t) =
  match json.intPart t with
  | None => None
  | Some (ip, s2) =>
      match json.fracPart s2 with
      | None => None
      | Some (fp, s3) =>
          match json.expPart s3 with
          | None => None
          | Some (ep, s4) => Some (x2d :: ip ++ fp ++ ep, s4)
          end
      end
  end.
Proof. reflexivity. Qed.

Lemma parseNumber_FormatInt (v : Z) (rest : bytes) :
  json.parseNumber (strconv.FormatInt v ++ x2c :: rest) =
  Some (strconv.FormatInt v, x2c :: rest).
Proof.
  unfold strconv.FormatInt. destruct (Z.to_int v) as [u|u] eqn:E.
  - apply parseNumber_digits. eapply to_int_Pos_plain, E.
  - apply to_int_Neg_plain in E. cbn [app].
    rewrite parseNumber_minus, (intPart_digits u rest (or_intror E)).
    rewrite fracPart_comma, expPart_comma, !List.app_nil_r. reflexivity.
Qed.

Lemma parseNumber_head (c : byte) (t lit rest : bytes) :
  json.parseNumber (c :: t) = Some (lit, rest) -> c = x2d \/ strconv.isDigit c = true.
Proof.
  destruct c; intros H;
    first [ left; reflexivity | right; reflexivity | exfalso; cbv in H; discriminate H ].
Qed.

Lemma parseValue_number_head (fuel : nat) (c : byte) (t : bytes) :
  c = x2d \/ strconv.isDigit c = true ->
  json.parseValue (S fuel) (c :: t) =
  match json.parseNumber (c :: t) with
  | Some (lit, rest) => json.POk (json.JNumber lit) rest
  | None => json.PSyntax
  end.
Proof. destruct c; intros [H|H]; try discriminate H; reflexivity. Qed.

Lemma parseValue_number (fuel : nat) (s lit rest : bytes) :
  json.parseNumber s = Some (lit, rest) ->
  json.parseValue (S fuel) s = json.POk (json.JNumber lit) rest.
Proof.
  intros H. destruct s as [|c t]; [discriminate H|].
  rewrite (parseValue_number_head fuel c t (parseNumber_head c t lit rest H)), H.
  reflexivity.
Qed.

(** ** encoding/json: the text of a [Cookie] read back *)

Lemma parseValue_object_start (fuel : nat) (t : bytes) :
  json.parseValue (S fuel) (x7b :: dq :: t) =
  json.pmap json.JObject (json.parseMembers fuel (dq :: t)).
Proof. reflexivity. Qed.

Lemma parseValue_string (fuel : nat) (s rest : bytes) :
  json.parseValue (S fuel) (dq :: json.encodeBody (length s) s ++ dq :: rest) =
  json.POk (json.JString (utf8.ToValidUTF8 s)) rest.
Proof.
  change (json.parseValue (S fuel) (dq :: ?t))
    with (json.pmap json.JString (json.parseString (S (length t)) t)).
  rewrite parseString_encodeString. reflexivity.
Qed.

(** One member of an object and the separator after it. *)
Lemma parseMembers_step (fuel : nat) (key r2 : bytes) (v : json.value) (sep : byte)
      (r4 : bytes) :
  json.parseValue fuel (json.skipSpace r2) = json.POk v (sep :: r4) ->
  json.isSpace sep = false ->
  json.parseMembers (S fuel)
    (dq :: json.encodeBody (length key) key ++ dq :: x3a :: r2) =
  if byte_eqb sep x2c
  then json.pmap (cons (utf8.ToValidUTF8 key, v))
                 (json.parseMembers fuel (json.skipSpace r4))
  else if byte_eqb sep x7d then json.POk [(utf8.ToValidUTF8 key, v)] r4
  else json.PSyntax.
Proof.
  intros Hv Hsp. cbn [json.parseMembers]. change (byte_eqb dq dq) with true. cbv iota.
  rewrite parseString_encodeString.
  change (json.skipSpace (x3a :: r2)) with (x3a :: r2).
  change (byte_eqb x3a x3a) with true. cbv iota.
  rewrite Hv. cbn [json.skipSpace]. rewrite Hsp. reflexivity.
Qed.

Lemma parseValue_FormatInt (fuel : nat) (v : Z) (rest : bytes) :
  json.parseValue (S fuel) (json.skipSpace (strconv.FormatInt v ++ x2c :: rest)) =
  json.POk (json.JNumber (strconv.FormatInt v)) (x2c :: rest).
Proof.
  pose proof (parseNumber_FormatInt v rest) as P.
  destruct (strconv.FormatInt v ++ x2c :: rest) as [|d t] eqn:E; [discriminate P|].
  assert (Hd : json.isSpace d = false).
  { apply parseNumber_head in P as [->|P]; [reflexivity|].
    destruct d; try discriminate P; reflexivity. }
  cbn [json.skipSpace]. rewrite Hd. apply parseValue_number, P.
Qed.

Lemma Marshal_shape (c : Cookie) :
  json.Marshal c =
  x7b :: dq :: json.encodeBody (length (str "auth_data")) (str "auth_data") ++
  dq :: x3a :: dq :: json.encodeBody (length (AuthData c)) (AuthData c) ++
  dq :: x2c :: dq :: json.encodeBody (length (str "expires")) (str "expires") ++
  dq :: x3a :: strconv.FormatInt (ExpiresUnix c) ++
  x2c :: dq :: json.encodeBody (length (str "by")) (str "by") ++
  dq :: x3a :: dq :: json.encodeBody (length (By c)) (By c) ++ dq :: [x7d].
Proof.
  unfold json.Marshal, json.encodeString.
  repeat (cbn [app str list_byte_of_string]; rewrite <- ?app_assoc).
  reflexivity.
Qed.

Lemma parseValue_Marshal (fuel : nat) (c : Cookie) :
  json.parseValue (S (S (S (S (S fuel))))) (json.Marshal c) =
  json.POk (json.JObject (cookieMembers c)) [].
Proof.
  rewrite Marshal_shape, parseValue_object_start.
  erewrite (parseMembers_step _ (str "auth_data"));
    [| apply parseValue_string | reflexivity].
  change (byte_eqb x2c x2c) with true. cbv iota.
  match goal with |- context [json.skipSpace (dq :: ?t)] =>
    change (json.skipSpace (dq :: t)) with (dq :: t) end.
  erewrite (parseMembers_step _ (str "expires"));
    [| apply parseValue_FormatInt | reflexivity].
  change (byte_eqb x2c x2c) with true. cbv iota.
  match goal with |- context [json.skipSpace (dq :: ?t)] =>
    change (json.skipSpace (dq :: t)) with (dq :: t) end.
  erewrite (parseMembers_step _ (str "by"));
    [| apply parseValue_string | reflexivity].
  reflexivity.
Qed.

Lemma Marshal_length (c : Cookie) : (2 <= length (json.Marshal c))%nat.
Proof. rewrite Marshal_shape. cbn [length]. lia. Qed.

Lemma parse_Marshal (c : Cookie) :
  json.parse (json.Marshal c) = json.POk (json.JObject (cookieMembers c)) [].
Proof.
  unfold json.parse.
  replace (json.skipSpace (json.Marshal c)) with (json.Marshal c)
    by (rewrite Marshal_shape; reflexivity).
  pose proof (Marshal_length c) as L.
  replace (2 * length (json.Marshal c) + 2)%nat
    with (S (S (S (S (S (2 * length (json.Marshal c) - 3))))))%nat by lia.
  rewrite parseValue_Marshal. reflexivity.
Qed.

(** [Unmarshal] reads back what [Marshal] wrote: the fields of the struct,
    the strings coerced to valid UTF-8. *)
Lemma Unmarshal_Marshal (c c0 : Cookie) :
  min_int64 <= ExpiresUnix c <= max_int64 ->
  json.Unmarshal (json.Marshal c) c0 =
  inl (mkCookie (utf8.ToValidUTF8 (AuthData c)) (ExpiresUnix c)
                (utf8.ToValidUTF8 (By c))).
Proof.
  intros R. unfold json.Unmarshal. rewrite parse_Marshal.
  unfold cookieMembers. cbn [json.object].
  change (json.findField (str "auth_data")) with (Some json.FAuthData).
  change (json.findField (str "expires")) with (Some json.FExpiresUnix).
  change (json.findField (str "by")) with (Some json.FBy).
  cbn [json.store fst snd]. rewrite (ParseInt_FormatInt _ R).
  cbn [json.store fst snd AuthData ExpiresUnix By]. reflexivity.
Qed.

(** ** int64 *)

Lemma wrap64_range (z : Z) : min_int64 <= wrap64 z <= max_int64.
Proof.
  unfold wrap64, min_int64, max_int64.
  pose proof (Z.mod_pos_bound (z + 2 ^ 63) (2 ^ 64) ltac:(lia)). lia.
Qed.

Lemma wrap64_small (z : Z) : min_int64 <= z <= max_int64 -> wrap64 z = z.
Proof.
  unfold wrap64, min_int64, max_int64. intros H.
  rewrite Z.mod_small by lia. lia.
Qed.

Lemma Unix_range (t : time.Time) : min_int64 <= time.Unix t <= max_int64.
Proof. apply wrap64_range. Qed.

(** ** Parse and the clock *)

Lemma afterSignature_Ok (now : time.Time) (txtBytes : bytes) (c : Cookie) :
  afterSignature now txtBytes = Ok c ->
  json.Unmarshal txtBytes (mkCookie [] 0 []) = inl c.
Proof.
  unfold afterSignature.
  destruct (json.Unmarshal txtBytes _) as [c'|e]; [|discriminate].
  destruct (wrap64 _ <? 0); [discriminate|]. intros [= ->]. reflexivity.
Qed.

(** A cookie that [Parse] accepts at some time is, at any time, accepted
    or expired, as the wrapped difference decides. *)
Lemma Parse_Ok_any_time (t0 now : time.Time) (secret cookie : bytes) (c : Cookie) :
  Parse t0 secret cookie = Ok c ->
  Parse now secret cookie =
  if wrap64 (ExpiresUnix c - time.Unix now) <? 0 then Err ErrExpired else Ok c.
Proof.
  unfold Parse. cbv zeta.
  destruct (strings.Index cookie dash =? -1); [discriminate|].
  destruct (strings.LastIndex cookie dash =? -1); [discriminate|].
  destruct (len cookie <? strings.LastIndex cookie dash + 1); [discriminate|].
  unfold slice, try.
  destruct (slice_to cookie (strings.Index cookie dash)); [|discriminate].
  destruct (base64.DecodeString base64.RawURLEncoding b); [|discriminate].
  destruct (slice_to cookie (strings.LastIndex cookie dash - 1)); [|discriminate].
  destruct (slice_from cookie (strings.LastIndex cookie dash + 1)); [|discriminate].
  destruct (hex.DecodeString b2); [|discriminate].
  destruct (negb (checkHmac b1 b3 secret)); [discriminate|].
  destruct (json.Unmarshal b0 _) as [c'|e]; [|discriminate].
  destruct (wrap64 (ExpiresUnix c' - time.Unix t0) <? 0); [discriminate|].
  intros [= ->]. reflexivity.
Qed.

Lemma Parse_Ok_Unmarshal (t0 : time.Time) (secret cookie : bytes) (c : Cookie) :
  Parse t0 secret cookie = Ok c ->
  exists txtBytes, json.Unmarshal txtBytes (mkCookie [] 0 []) = inl c.
Proof.
  unfold Parse. cbv zeta.
  destruct (strings.Index cookie dash =? -1); [discriminate|].
  destruct (strings.LastIndex cookie dash =? -1); [discriminate|].
  destruct (len cookie <? strings.LastIndex cookie dash + 1); [discriminate|].
  unfold slice, try.
  destruct (slice_to cookie (strings.Index cookie dash)); [|discriminate].
  destruct (base64.DecodeString base64.RawURLEncoding b); [|discriminate].
  destruct (slice_to cookie (strings.LastIndex cookie dash - 1)); [|discriminate].
  destruct (slice_from cookie (strings.LastIndex cookie dash + 1)); [|discriminate].
  destruct (hex.DecodeString b2); [|discriminate].
  destruct (negb (checkHmac b1 b3 secret)); [discriminate|].
  destruct (json.Unmarshal b0 _) as [c'|e] eqn:U; [|discriminate].
  destruct (wrap64 (ExpiresUnix c' - time.Unix t0) <? 0); [discriminate|].
  intros [= ->]. eauto.
Qed.

(** ** The fields that [Unmarshal] fills *)

Lemma ParseInt_range (s : bytes) (n : Z) :
  strconv.ParseInt s = Some n -> min_int64 <= n <= max_int64.
Proof.
  unfold strconv.ParseInt. destruct s as [|c t]; [discriminate|]. cbv zeta.
  destruct (strconv.parseDigits _) as [m|]; [|discriminate].
  destruct (Z.leb_spec min_int64 (if byte_eqb c x2d then - m else m)); [|discriminate].
  destruct (Z.leb_spec (if byte_eqb c x2d then - m else m) max_int64); [|discriminate].
  intros [= <-]. lia.
Qed.

Lemma store_range (f : json.field) (v : json.value) (d : json.decodeState) :
  min_int64 <= ExpiresUnix (fst d) <= max_int64 ->
  min_int64 <= ExpiresUnix (fst (json.store f v d)) <= max_int64.
Proof.
  intros H. destruct d as [c e].
  destruct v, f; cbn [json.store fst snd]; try exact H;
    try (unfold json.saveError; destruct e; exact H).
  destruct (strconv.ParseInt lit) as [n|] eqn:P.
  - apply ParseInt_range in P. exact P.
  - unfold json.saveError. destruct e; exact H.
Qed.

Lemma object_range (members : list (bytes * json.value)) (d : json.decodeState) :
  min_int64 <= ExpiresUnix (fst d) <= max_int64 ->
  min_int64 <= ExpiresUnix (fst (json.object members d)) <= max_int64.
Proof.
  revert d. induction members as [|[key v] members IH]; intros d H; [exact H|].
  cbn [json.object]. destruct (json.findField key) as [f|]; apply IH; [|exact H].
  apply store_range, H.
Qed.

Lemma Unmarshal_range (data : bytes) (c0 c : Cookie) :
  min_int64 <= ExpiresUnix c0 <= max_int64 ->
  json.Unmarshal data c0 = inl c ->
  min_int64 <= ExpiresUnix c <= max_int64.
Proof.
  intros H. unfold json.Unmarshal.
  destruct (json.parse data) as [v rest| |]; try discriminate.
  destruct v; try discriminate.
  - intros [= <-]. exact H.
  - pose proof (object_range members (c0, None) H) as R.
    destruct (json.object members (c0, None)) as [c' [e|]]; [discriminate|].
    intros [= <-]. exact R.
Qed.

Lemma saveError_fst (d : json.decodeState) (e : json.error) :
  fst (json.saveError d e) = fst d.
Proof. unfold json.saveError. destruct (snd d); reflexivity. Qed.

Lemma store_other (f g : json.field) (v : json.value) (d : json.decodeState) :
  g <> f -> get f (fst (json.store g v d)) = get f (fst d).
Proof.
  intros N. destruct d as [c e].
  destruct v, g, f; try contradiction; cbn [json.store fst snd];
    rewrite ?saveError_fst; try reflexivity;
    destruct (strconv.ParseInt lit); rewrite ?saveError_fst; reflexivity.
Qed.

Lemma object_absent (f : json.field) (members : list (bytes * json.value))
      (d : json.decodeState) :
  absent f members -> get f (fst (json.object members d)) = get f (fst d).
Proof.
  revert d. induction members as [|[key v] members IH]; intros d A; [reflexivity|].
  cbn [json.object].
  assert (A' : absent f members) by (intros k w I; apply (A k w); right; exact I).
  destruct (json.findField key) as [g|] eqn:F.
  - rewrite (IH _ A'). apply store_other. intros ->.
    apply (A key v); [left; reflexivity | exact F].
  - apply (IH _ A').
Qed.

Section Fuel.
Local Open Scope nat_scope.

(** ** encoding/json: the fuel of the reader is never used up *)

Lemma pmap_POk {A B} (g : A -> B) (r : json.presult A) (b : B) (rest : bytes) :
  json.pmap g r = json.POk b rest -> exists a, r = json.POk a rest /\ b = g a.
Proof. destruct r; simpl; intros H; inversion H; eauto. Qed.

Lemma pmap_PFuel {A B} (g : A -> B) (r : json.presult A) :
  json.pmap g r = json.PFuel -> r = json.PFuel.
Proof. destruct r; simpl; intros H; inversion H; reflexivity. Qed.

Lemma skipSpace_length (s : bytes) : length (json.skipSpace s) <= length s.
Proof.
  induction s as [|c s IH]; simpl; [lia|]. destruct (json.isSpace c); simpl; lia.
Qed.

Lemma skipSpace_cons_length (s : bytes) (c : byte) (t : bytes) :
  json.skipSpace s = c :: t -> length t < length s.
Proof.
  intros H. pose proof (skipSpace_length s) as L. rewrite H in L. simpl in L. lia.
Qed.

Ltac pmap_ok :=
  match goal with
  | H : json.pmap _ _ = json.POk _ _ |- _ =>
      apply pmap_POk in H; destruct H as (? & H & ?)
  end.

Lemma getu4_length (s : bytes) (r : Z) : json.getu4 s = Some r -> 6 <= length s.
Proof.
  unfold json.getu4. destruct s as [|? [|? [|? [|? [|? [|? ?]]]]]]; try discriminate.
  simpl. lia.
Qed.

Lemma parseString_consumes (fuel : nat) :
  forall (s a rest : bytes),
    json.parseString fuel s = json.POk a rest -> length rest < length s.
Proof.
  induction fuel as [|fuel IH]; intros s a rest H; [discriminate H|].
  cbn [json.parseString] in H.
  destruct s as [|c t]; [discriminate H|].
  destruct (byte_eqb c dq); [injection H as _ <-; simpl; lia|].
  destruct (byte_eqb c x5c).
  - destruct t as [|e t']; [discriminate H|].
    destruct (byte_eqb e x75).
    + destruct t' as [|h1 [|h2 [|h3 [|h4 t'']]]]; try discriminate H.
      destruct (json.hex4 h1 h2 h3 h4) as [rr|]; [|discriminate H].
      destruct (json.IsSurrogate rr).
      * destruct (json.getu4 t'') as [rr1|] eqn:G.
        -- apply getu4_length in G.
           destruct (_ =? _)%Z; pmap_ok; apply IH in H;
             rewrite ?length_skipn in H; simpl; lia.
        -- pmap_ok. apply IH in H. simpl. lia.
      * pmap_ok. apply IH in H. simpl. lia.
    + destruct (json.simpleEscape e); [|discriminate H].
      pmap_ok. apply IH in H. simpl. lia.
  - destruct (Z.ltb (byteZ c) 32); [discriminate H|].
    destruct (Z.ltb (byteZ c) 128).
    + pmap_ok. apply IH in H. simpl. lia.
    + destruct (utf8.rune_size (c :: t)) as [n|] eqn:R.
      * apply rune_size_le in R. pmap_ok. apply IH in H.
        rewrite length_skipn in H. cbn [length] in *. lia.
      * pmap_ok. apply IH in H. simpl. lia.
Qed.

Lemma parseString_fuel (fuel : nat) :
  forall s : bytes, length s < fuel -> json.parseString fuel s <> json.PFuel.
Proof.
  induction fuel as [|fuel IH]; intros s L; [lia|].
  cbn [json.parseString].
  destruct s as [|c t]; [discriminate|]. simpl in L.
  assert (IH' : forall (g : bytes -> bytes) u, length u <= length t ->
                  json.pmap g (json.parseString fuel u) <> json.PFuel).
  { intros g u Lu F. apply pmap_PFuel in F. revert F. apply IH. lia. }
  destruct (byte_eqb c dq); [discriminate|].
  destruct (byte_eqb c x5c).
  - destruct t as [|e t']; [discriminate|].
    destruct (byte_eqb e x75).
    + destruct t' as [|h1 [|h2 [|h3 [|h4 t'']]]]; try discriminate.
      destruct (json.hex4 h1 h2 h3 h4) as [rr|]; [|discriminate].
      destruct (json.IsSurrogate rr).
      * destruct (json.getu4 t'') as [rr1|].
        -- destruct (_ =? _)%Z; apply IH'; rewrite ?length_skipn; simpl; lia.
        -- apply IH'. simpl. lia.
      * apply IH'. simpl. lia.
    + destruct (json.simpleEscape e); [|discriminate].
      apply IH'. simpl. lia.
  - destruct (Z.ltb (byteZ c) 32); [discriminate|].
    destruct (Z.ltb (byteZ c) 128).
    + apply IH'. lia.
    + destruct (utf8.rune_size (c :: t)) as [n|] eqn:R.
      * apply rune_size_le in R. apply IH'. rewrite length_skipn.
        cbn [length] in *. lia.
      * apply IH'. lia.
Qed.

Lemma span_length (p : byte -> bool) (s a b : bytes) :
  json.span p s = (a, b) -> length s = length a + length b.
Proof.
  revert a b. induction s as [|c s IH]; intros a b H; simpl in H.
  - injection H as <- <-. reflexivity.
  - destruct (p c).
    + destruct (json.span p s) as [a' b'] eqn:E. injection H as <- <-.
      simpl. rewrite (IH a' b' eq_refl). reflexivity.
    + injection H as <- <-. reflexivity.
Qed.

Lemma digits1_length (s a b : bytes) :
  json.digits1 s = Some (a, b) -> length b < length s.
Proof.
  unfold json.digits1. destruct (json.span strconv.isDigit s) as [a' b'] eqn:E.
  apply span_length in E. destruct a'; [discriminate|].
  intros [= <- <-]. simpl in E. lia.
Qed.

Lemma intPart_length (s a b : bytes) :
  json.intPart s = Some (a, b) -> length b < length s.
Proof.
  unfold json.intPart. destruct s as [|c t]; [discriminate|].
  destruct (byte_eqb c x30); [intros [= <- <-]; simpl; lia|].
  destruct (strconv.isDigit c); [|discriminate].
  destruct (json.span strconv.isDigit t) as [a' b'] eqn:E.
  apply span_length in E. intros [= <- <-]. simpl. lia.
Qed.

Lemma fracPart_length (s a b : bytes) :
  json.fracPart s = Some (a, b) -> length b <= length s.
Proof.
  unfold json.fracPart. destruct s as [|d t]; [intros [= <- <-]; lia|].
  destruct (byte_eqb d x2e); [|intros [= <- <-]; lia].
  destruct (json.digits1 t) as [[ds r]|] eqn:E; [|discriminate].
  apply digits1_length in E. intros [= <- <-]. simpl. lia.
Qed.

Lemma expPart_length (s a b : bytes) :
  json.expPart s = Some (a, b) -> length b <= length s.
Proof.
  unfold json.expPart. destruct s as [|e t]; [intros [= <- <-]; lia|].
  destruct (byte_eqb e x65 || byte_eqb e x45); [|intros [= <- <-]; lia].
  destruct t as [|g u].
  - destruct (json.digits1 []) as [[ds r]|] eqn:E; [|discriminate].
    apply digits1_length in E. simpl in E. lia.
  - destruct (byte_eqb g x2b || byte_eqb g x2d).
    + destruct (json.digits1 u) as [[ds r]|] eqn:E; [|discriminate].
      apply digits1_length in E. intros [= <- <-]. simpl. lia.
    + destruct (json.digits1 (g :: u)) as [[ds r]|] eqn:E; [|discriminate].
      apply digits1_length in E. intros [= <- <-]. simpl in *. lia.
Qed.

Lemma parseNumber_length (s lit rest : bytes) :
  json.parseNumber s = Some (lit, rest) -> length rest < length s.
Proof.
  unfold json.parseNumber.
  assert (G : forall s1 sign, length s1 <= length s ->
    match json.intPart s1 with
    | None => None
    | Some (ip, s2) =>
        match json.fracPart s2 with
        | None => None
        | Some (fp, s3) =>
            match json.expPart s3 with
            | None => None
            | Some (ep, s4) => Some (sign ++ ip ++ fp ++ ep, s4)
            end
        end
    end = Some (lit, rest) -> length rest < length s).
  { intros s1 sign L.
    destruct (json.intPart s1) as [[ip s2]|] eqn:I; [|discriminate].
    destruct (json.fracPart s2) as [[fp s3]|] eqn:F; [|discriminate].
    destruct (json.expPart s3) as [[ep s4]|] eqn:E; [|discriminate].
    apply intPart_length in I. apply fracPart_length in F. apply expPart_length in E.
    intros [= _ <-]. lia. }
  destruct s as [|c t]; [apply G; lia|].
  destruct (byte_eqb c x2d); apply G; simpl; lia.
Qed.

Lemma literal_length (name : bytes) (v w : json.value) (s rest : bytes) :
  name <> [] -> json.literal name v s = json.POk w rest -> length rest < length s.
Proof.
  intros N. unfold json.literal. destruct (strings.HasPrefix s name) eqn:H; [|discriminate].
  intros [= _ <-]. rewrite length_skipn.
  destruct name as [|p name]; [contradiction|].
  destruct s as [|c s]; [discriminate H|]. simpl. lia.
Qed.

Lemma consumes_pmap {A B} (g : A -> B) (parser : bytes -> json.presult A) :
  consumes parser -> consumes (fun s => json.pmap g (parser s)).
Proof.
  intros C s b rest H. apply pmap_POk in H as (a & H & _). apply (C s a rest H).
Qed.

Lemma parse_consumes (fuel : nat) :
  consumes (json.parseValue fuel) /\ consumes (json.parseMembers fuel) /\
  consumes (json.parseElements fuel).
Proof.
  induction fuel as [|fuel (IHv & IHm & IHe)].
  { repeat split; intros s a rest H; discriminate H. }
  repeat split; intros s a rest H.
  - (* parseValue *)
    cbn [json.parseValue] in H. destruct s as [|c t]; [discriminate H|].
    destruct (byte_eqb c x7b).
    { destruct (json.skipSpace t) as [|c' t'] eqn:E; [discriminate H|].
      pose proof (skipSpace_length t) as L. rewrite E in L.
      destruct (byte_eqb c' x7d).
      - injection H as _ <-. simpl in *. lia.
      - apply pmap_POk in H as (m & H & _). apply IHm in H. simpl in *. lia. }
    destruct (byte_eqb c x5b).
    { destruct (json.skipSpace t) as [|c' t'] eqn:E; [discriminate H|].
      pose proof (skipSpace_length t) as L. rewrite E in L.
      destruct (byte_eqb c' x5d).
      - injection H as _ <-. simpl in *. lia.
      - apply pmap_POk in H as (m & H & _). apply IHe in H. simpl in *. lia. }
    destruct (byte_eqb c dq).
    { apply pmap_POk in H as (m & H & _). apply parseString_consumes in H. simpl. lia. }
    destruct (byte_eqb c x74); [apply literal_length in H; [exact H | discriminate]|].
    destruct (byte_eqb c x66); [apply literal_length in H; [exact H | discriminate]|].
    destruct (byte_eqb c x6e); [apply literal_length in H; [exact H | discriminate]|].
    destruct (json.parseNumber (c :: t)) as [[lit r]|] eqn:N; [|discriminate H].
    injection H as _ <-. apply parseNumber_length in N. exact N.
  - (* parseMembers *)
    cbn [json.parseMembers] in H. destruct s as [|q t]; [discriminate H|].
    destruct (byte_eqb q dq); [|discriminate H].
    destruct (json.parseString (S (length t)) t) as [key r1| |] eqn:K; try discriminate H.
    apply parseString_consumes in K.
    destruct (json.skipSpace r1) as [|colon r2] eqn:E1; [discriminate H|].
    apply skipSpace_cons_length in E1.
    destruct (byte_eqb colon x3a); [|discriminate H].
    destruct (json.parseValue fuel (json.skipSpace r2)) as [v r3| |] eqn:V;
      try discriminate H.
    apply IHv in V. pose proof (skipSpace_length r2) as L2.
    destruct (json.skipSpace r3) as [|sep r4] eqn:E3; [discriminate H|].
    apply skipSpace_cons_length in E3.
    destruct (byte_eqb sep x2c).
    + apply pmap_POk in H as (m & H & _). apply IHm in H.
      pose proof (skipSpace_length r4). simpl. lia.
    + destruct (byte_eqb sep x7d); [|discriminate H].
      injection H as _ <-. simpl. lia.
  - (* parseElements *)
    cbn [json.parseElements] in H.
    destruct (json.parseValue fuel s) as [v r1| |] eqn:V; try discriminate H.
    apply IHv in V.
    destruct (json.skipSpace r1) as [|sep r2] eqn:E1; [discriminate H|].
    apply skipSpace_cons_length in E1.
    destruct (byte_eqb sep x2c).
    + apply pmap_POk in H as (m & H & _). apply IHe in H.
      pose proof (skipSpace_length r2). lia.
    + destruct (byte_eqb sep x5d); [|discriminate H].
      injection H as _ <-. lia.
Qed.

Lemma literal_fuel (name : bytes) (v : json.value) (s : bytes) :
  json.literal name v s <> json.PFuel.
Proof. unfold json.literal. destruct (strings.HasPrefix s name); discriminate. Qed.

Lemma parse_no_fuel (fuel : nat) :
  (forall s, 2 * length s + 1 <= fuel -> json.parseValue fuel s <> json.PFuel) /\
  (forall s, 2 * length s + 1 <= fuel -> json.parseMembers fuel s <> json.PFuel) /\
  (forall s, 2 * length s + 2 <= fuel -> json.parseElements fuel s <> json.PFuel).
Proof.
  induction fuel as [|fuel (IHv & IHm & IHe)].
  { repeat split; intros s L; lia. }
  destruct (parse_consumes fuel) as (Cv & Cm & Ce).
  repeat split; intros s L.
  - cbn [json.parseValue]. destruct s as [|c t]; [discriminate|]. simpl in L.
    destruct (byte_eqb c x7b).
    { destruct (json.skipSpace t) as [|c' t'] eqn:E; [discriminate|].
      pose proof (skipSpace_length t) as L'. rewrite E in L'.
      destruct (byte_eqb c' x7d); [discriminate|].
      intros F. apply pmap_PFuel in F. revert F. apply IHm. simpl in *. lia. }
    destruct (byte_eqb c x5b).
    { destruct (json.skipSpace t) as [|c' t'] eqn:E; [discriminate|].
      pose proof (skipSpace_length t) as L'. rewrite E in L'.
      destruct (byte_eqb c' x5d); [discriminate|].
      intros F. apply pmap_PFuel in F. revert F. apply IHe. simpl in *. lia. }
    destruct (byte_eqb c dq).
    { intros F. apply pmap_PFuel in F. revert F. apply parseString_fuel. lia. }
    destruct (byte_eqb c x74); [apply literal_fuel|].
    destruct (byte_eqb c x66); [apply literal_fuel|].
    destruct (byte_eqb c x6e); [apply literal_fuel|].
    destruct (json.parseNumber (c :: t)) as [[lit r]|]; discriminate.
  - cbn [json.parseMembers]. destruct s as [|q t]; [discriminate|]. simpl in L.
    destruct (byte_eqb q dq); [|discriminate].
    destruct (json.parseString (S (length t)) t) as [key r1| |] eqn:K; try discriminate.
    2:{ exfalso. revert K. apply parseString_fuel. lia. }
    apply parseString_consumes in K.
    destruct (json.skipSpace r1) as [|colon r2] eqn:E1; [discriminate|].
    apply skipSpace_cons_length in E1.
    destruct (byte_eqb colon x3a); [|discriminate].
    pose proof (skipSpace_length r2) as L2.
    destruct (json.parseValue fuel (json.skipSpace r2)) as [v r3| |] eqn:V;
      try discriminate.
    2:{ exfalso. revert V. apply IHv. lia. }
    apply Cv in V.
    destruct (json.skipSpace r3) as [|sep r4] eqn:E3; [discriminate|].
    apply skipSpace_cons_length in E3.
    destruct (byte_eqb sep x2c).
    + intros F. apply pmap_PFuel in F. revert F. apply IHm.
      pose proof (skipSpace_length r4). lia.
    + destruct (byte_eqb sep x7d); discriminate.
  - cbn [json.parseElements].
    destruct (json.parseValue fuel s) as [v r1| |] eqn:V; try discriminate.
    2:{ exfalso. revert V. apply IHv. lia. }
    apply Cv in V.
    destruct (json.skipSpace r1) as [|sep r2] eqn:E1; [discriminate|].
    apply skipSpace_cons_length in E1.
    destruct (byte_eqb sep x2c).
    + intros F. apply pmap_PFuel in F. revert F. apply IHe.
      pose proof (skipSpace_length r2). lia.
    + destruct (byte_eqb sep x5d); discriminate.
Qed.

(** [parse] never runs out of fuel: a text is read or is a syntax error. *)
Lemma parse_fuel (data : bytes) : json.parse data <> json.PFuel.
Proof.
  unfold json.parse.
  destruct (json.parseValue (2 * length data + 2) (json.skipSpace data))
    as [v rest| |] eqn:E.
  - destruct (json.skipSpace rest); discriminate.
  - discriminate.
  - exfalso. revert E. apply (parse_no_fuel (2 * length data + 2)).
    pose proof (skipSpace_length data). lia.
Qed.

End Fuel.

(** ** Parse and the expiration *)

Lemma afterSignature_boundary (now : time.Time) (txtBytes : bytes) (c : Cookie) :
  json.Unmarshal txtBytes (mkCookie [] 0 []) = inl c ->
  (time.Unix now = ExpiresUnix c -> afterSignature now txtBytes = Ok c) /\
  (time.Unix now - 1 = ExpiresUnix c -> afterSignature now txtBytes = Err ErrExpired) /\
  (0 <= time.Unix now -> afterSignature now txtBytes = Err ErrExpired ->
   ExpiresUnix c < time.Unix now).
Proof.
  intros U. unfold afterSignature. rewrite U. repeat split.
  - intros <-. rewrite Z.sub_diag. reflexivity.
  - intros <-. replace (time.Unix now - 1 - time.Unix now) with (-1) by lia. reflexivity.
  - intros N. destruct (Z.ltb_spec (wrap64 (ExpiresUnix c - time.Unix now)) 0) as [W|W];
      [|discriminate].
    intros _. apply Unmarshal_range in U; [|cbn; unfold min_int64, max_int64; lia].
    pose proof (Unix_range now) as R.
    destruct (Z.lt_ge_cases (ExpiresUnix c) (time.Unix now)) as [?|G]; [assumption|].
    rewrite wrap64_small in W; unfold min_int64, max_int64 in *; lia.
Qed.

(** ** Identities that encode without a dash *)

Lemma digit_dash (d : Z) :
  0 <= d < 64 -> d <> 62 -> byte_eqb x2d (base64.digit base64.RawURLEncoding d) = false.
Proof.
  intros H. apply (Z_lt_64_cases d (fun d => d <> 62 -> _)); [exact H|].
  intros n Hn N.
  do 64 (destruct n as [|n]; [first [reflexivity | exfalso; apply N; reflexivity]|]). lia.
Qed.

Lemma dashless_inv (b : byte) :
  dashless b = true -> 0 <= byteZ b < 128 /\ byteZ b <> 62 /\ byteZ b <> 126.
Proof.
  unfold dashless. intros H. apply andb_true_iff in H as [H H3].
  apply andb_true_iff in H as [H1 H2]. apply Z.ltb_lt in H1.
  pose proof (byteZ_range b). apply negb_true_iff, byte_eqb_neq in H2, H3.
  repeat split; try lia.
  - intros E. apply H2, byteZ_inj. exact E.
  - intros E. apply H3, byteZ_inj. exact E.
Qed.

Lemma raw64_dashless (src : bytes) :
  forallb dashless src = true -> has_byte x2d (raw64 src) = false.
Proof.
  unfold raw64.
  induction src as [| a | a b | a b c l IH] using list_ind3; intros H.
  - reflexivity.
  - cbn [forallb] in H. apply andb_true_iff in H as [Ha _].
    apply dashless_inv in Ha.
    cbn [base64.EncodeToString app base64.padding base64.padChar
         base64.RawURLEncoding base64.WithPadding has_byte existsb].
    fold base64.RawURLEncoding.
    rewrite !digit_dash; [reflexivity | | | |]; Z.div_mod_to_equations; lia.
  - cbn [forallb] in H. apply andb_true_iff in H as [Ha H].
    apply andb_true_iff in H as [Hb _].
    apply dashless_inv in Ha, Hb.
    cbn [base64.EncodeToString app base64.padding base64.padChar
         base64.RawURLEncoding base64.WithPadding has_byte existsb].
    fold base64.RawURLEncoding.
    rewrite !digit_dash; [reflexivity | | | | | |]; Z.div_mod_to_equations; lia.
  - cbn [forallb] in H. apply andb_true_iff in H as [Ha H].
    apply andb_true_iff in H as [Hb H]. apply andb_true_iff in H as [Hc H].
    apply dashless_inv in Ha, Hb, Hc.
    cbn [base64.EncodeToString has_byte existsb].
    fold (has_byte x2d (base64.EncodeToString base64.RawURLEncoding l)).
    rewrite (IH H).
    rewrite !digit_dash; [reflexivity | | | | | | | |]; Z.div_mod_to_equations; lia.
Qed.

Lemma escapeASCII_dashless (b : byte) :
  tame b = true -> forallb dashless (json.escapeASCII b) = true.
Proof. destruct b; intros H; try discriminate H; reflexivity. Qed.

Lemma tame_ascii (b : byte) : tame b = true -> byteZ b < 0x80.
Proof. unfold tame. intros H. apply andb_true_iff in H as [H _]. apply Z.ltb_lt, H. Qed.

Lemma encodeBody_dashless (n : nat) (s : bytes) :
  forallb tame s = true -> forallb dashless (json.encodeBody n s) = true.
Proof.
  revert s. induction n as [|n IH]; intros s H; [reflexivity|].
  destruct s as [|b t]; [reflexivity|].
  cbn [forallb] in H. apply andb_true_iff in H as [Hb Ht].
  cbn [json.encodeBody].
  destruct (Z.ltb_spec (byteZ b) 0x80) as [_|G]; [|apply tame_ascii in Hb; lia].
  rewrite forallb_app, (escapeASCII_dashless b Hb), (IH t Ht). reflexivity.
Qed.

Lemma bytes_of_uint_dashless (u : Decimal.uint) :
  forallb dashless (strconv.bytes_of_uint u) = true.
Proof. induction u; cbn [strconv.bytes_of_uint forallb]; try rewrite IHu; reflexivity. Qed.

Lemma FormatInt_dashless (v : Z) : forallb dashless (strconv.FormatInt v) = true.
Proof.
  unfold strconv.FormatInt. destruct (Z.to_int v); cbn [forallb];
    rewrite bytes_of_uint_dashless; reflexivity.
Qed.

Lemma Marshal_dashless (c : Cookie) :
  forallb tame (AuthData c) = true -> forallb tame (By c) = true ->
  forallb dashless (json.Marshal c) = true.
Proof.
  intros HA HB. rewrite Marshal_shape.
  repeat (cbn [forallb]; rewrite ?forallb_app);
    rewrite !encodeBody_dashless, FormatInt_dashless by (assumption || reflexivity).
  reflexivity.
Qed.

Lemma valid_tame (n : nat) (s : bytes) :
  (length s <= n)%nat -> forallb tame s = true -> utf8.valid n s = true.
Proof.
  revert s. induction n as [|n IH]; intros s L H.
  - destruct s; [reflexivity | cbn in L; lia].
  - destruct s as [|b t]; [reflexivity|].
    cbn [forallb] in H. apply andb_true_iff in H as [Hb Ht].
    cbn [utf8.valid]. rewrite (rune_size_ascii b t (tame_ascii b Hb)).
    cbn [skipn]. apply IH; [cbn in L; lia | exact Ht].
Qed.

(** ** The slices of Parse *)

Lemma slice_to_Some (s : bytes) (hi : Z) :
  0 <= hi <= len s -> slice_to s hi = Some (firstn (Z.to_nat hi) s).
Proof.
  intros H. unfold slice_to.
  destruct (Z.leb_spec 0 hi); [|lia]. destruct (Z.leb_spec hi (len s)); [|lia]. reflexivity.
Qed.

Lemma slice_from_Some (s : bytes) (lo : Z) :
  0 <= lo <= len s -> slice_from s lo = Some (skipn (Z.to_nat lo) s).
Proof.
  intros H. unfold slice_from.
  destruct (Z.leb_spec 0 lo); [|lia]. destruct (Z.leb_spec lo (len s)); [|lia]. reflexivity.
Qed.

Lemma slice_to_None (s : bytes) (hi : Z) : hi < 0 -> slice_to s hi = None.
Proof. intros H. unfold slice_to. destruct (Z.leb_spec 0 hi); [lia|]. reflexivity. Qed.

(** [Parse] panics exactly on the cookies whose only dash is their first
    byte: the slice [cookie[:lastDashPos-1]] then ends at -1. *)
Lemma Parse_Panic_iff (now : time.Time) (secret cookie : bytes) :
  Parse now secret cookie = Panic <-> strings.LastIndex cookie dash = 0.
Proof.
  pose proof (Index_le_LastIndex x2d cookie) as Hle.
  pose proof (LastIndex_lt_len cookie) as Hlt.
  pose proof (Index_single_range x2d cookie) as Hi.
  pose proof (LastIndex_single_range x2d cookie) as Hl.
  pose proof (Index_single_none x2d cookie) as Ni.
  pose proof (LastIndex_single_none x2d cookie) as Nl.
  change [x2d] with dash in *.
  unfold Parse. cbv zeta.
  destruct (Z.eqb_spec (strings.Index cookie dash) (-1)) as [E|E].
  { split; [discriminate|]. intros L0. apply Ni in E. apply Nl in E. lia. }
  destruct (Z.eqb_spec (strings.LastIndex cookie dash) (-1)) as [E'|E'].
  { split; [discriminate | lia]. }
  destruct (Z.ltb_spec (len cookie) (strings.LastIndex cookie dash + 1)) as [?|_]; [lia|].
  unfold slice, try.
  rewrite (slice_to_Some cookie (strings.Index cookie dash)) by lia.
  rewrite (slice_from_Some cookie (strings.LastIndex cookie dash + 1)) by lia.
  destruct (Z.eq_dec (strings.LastIndex cookie dash) 0) as [L0|L0].
  - rewrite L0 in *. replace (strings.Index cookie dash) with 0 by lia.
    change (firstn (Z.to_nat 0) cookie) with (@nil byte).
    change (base64.DecodeString base64.RawURLEncoding []) with (Some (@nil byte)).
    rewrite slice_to_None by lia. tauto.
  - rewrite (slice_to_Some cookie (strings.LastIndex cookie dash - 1)) by lia.
    split; [|contradiction].
    destruct (base64.DecodeString _ _); [|discriminate].
    destruct (hex.DecodeString _); [|discriminate].
    destruct (negb _); [discriminate|].
    destruct (json.Unmarshal _ _); [|discriminate].
    destruct (_ <? 0); discriminate.
Qed.

Lemma Parse_panics_on_leading_dash (now : time.Time) (secret sig : bytes) :
  has_byte x2d sig = false -> Parse now secret (x2d :: sig) = Panic.
Proof.
  intros H. apply Parse_Panic_iff.
  apply (LastIndex_single_app x2d [] sig H).
Qed.

(** ** The branches of Parse *)

Lemma Parse_no_dashes (now : time.Time) (secret cookie : bytes) :
  strings.Index cookie dash = -1 -> Parse now secret cookie = Err ErrNoDashes.
Proof. intros H. unfold Parse. rewrite H. reflexivity. Qed.

(** The test [len(cookie) < lastDashPos+1] never holds. *)
Lemma Parse_never_no_signature (now : time.Time) (secret cookie : bytes) :
  Parse now secret cookie <> Err ErrNoSignature.
Proof.
  unfold Parse. cbv zeta.
  destruct (strings.Index cookie dash =? -1); [discriminate|].
  destruct (strings.LastIndex cookie dash =? -1); [discriminate|].
  pose proof (LastIndex_lt_len cookie) as L.
  destruct (Z.ltb_spec (len cookie) (strings.LastIndex cookie dash + 1)); [lia|].
  unfold slice, try.
  destruct (slice_to cookie (strings.Index cookie dash)); [|discriminate].
  destruct (base64.DecodeString base64.RawURLEncoding b); [|discriminate].
  destruct (slice_to cookie (strings.LastIndex cookie dash - 1)); [|discriminate].
  destruct (slice_from cookie (strings.LastIndex cookie dash + 1)); [|discriminate].
  destruct (hex.DecodeString b2); [|discriminate].
  destruct (negb (checkHmac b1 b3 secret)); [discriminate|].
  destruct (json.Unmarshal b0 _) as [c'|e]; [|discriminate].
  destruct (wrap64 _ <? 0); discriminate.
Qed.

Lemma checkHmac_empty (message key : bytes) : checkHmac message [] key = false.
Proof.
  unfold checkHmac. apply hmac_Equal_length. rewrite hmac_Sum_length. discriminate.
Qed.

(** A cookie that ends at its last dash, the dash not being its first
    byte, with a payload segment that decodes: the empty signature is a bad
    signature. *)
Lemma Parse_ends_at_dash (now : time.Time) (secret cookie base64Txt txtBytes : bytes) :
  strings.LastIndex cookie dash = len cookie - 1 ->
  0 < strings.LastIndex cookie dash ->
  slice_to cookie (strings.Index cookie dash) = Some base64Txt ->
  base64.DecodeString base64.RawURLEncoding base64Txt = Some txtBytes ->
  Parse now secret cookie = Err ErrBadSignature.
Proof.
  intros E P S B.
  pose proof (Index_single_none x2d cookie) as Ni.
  pose proof (LastIndex_single_none x2d cookie) as Nl.
  change [x2d] with dash in *.
  assert (I : strings.Index cookie dash <> -1).
  { intros I. apply Ni, Nl in I. lia. }
  rewrite (Parse_steps now secret cookie base64Txt
             (firstn (Z.to_nat (strings.LastIndex cookie dash - 1)) cookie) [] I S).
  - rewrite B. change (hex.DecodeString []) with (Some (@nil byte)). cbv iota.
    rewrite checkHmac_empty. reflexivity.
  - apply slice_to_Some. lia.
  - rewrite slice_from_Some by lia. rewrite E.
    replace (len cookie - 1 + 1) with (len cookie) by lia.
    unfold len. rewrite Nat2Z.id, skipn_all. reflexivity.
Qed.

(** A payload segment that is no base64 text is reported before the
    signature is looked at. *)
Lemma Parse_base64_first (now : time.Time) (secret cookie base64Txt : bytes) :
  strings.Index cookie dash <> -1 ->
  slice_to cookie (strings.Index cookie dash) = Some base64Txt ->
  base64.DecodeString base64.RawURLEncoding base64Txt = None ->
  Parse now secret cookie = Err ErrBase64.
Proof.
  intros I S B. unfold Parse. cbv zeta.
  destruct (Z.eqb_spec (strings.Index cookie dash) (-1)) as [?|_]; [contradiction|].
  pose proof (Index_le_LastIndex x2d cookie) as Hle. change [x2d] with dash in Hle.
  pose proof (LastIndex_lt_len cookie) as Hlt.
  destruct (Z.eqb_spec (strings.LastIndex cookie dash) (-1)) as [E|_].
  { destruct (Index_single_range x2d cookie) as [H|H]; change [x2d] with dash in H; lia. }
  destruct (Z.ltb_spec (len cookie) (strings.LastIndex cookie dash + 1)) as [?|_]; [lia|].
  unfold slice, try. rewrite S, B. reflexivity.
Qed.

(** ** The tag and the text *)

Lemma hmac_rfc2104 (key text : bytes) :
  hmac.Sum (hmac.Write (hmac.New key) text) [] = rfc2104_hmac_sha1 key text.
Proof. reflexivity. Qed.

(** ** The clock of Refresh *)

Lemma Add_DefaultDuration (now : time.Time) :
  0 <= time.nsec now < 1000000000 ->
  time.Add now DefaultDuration = time.mkTime (time.sec now + 3600) (time.nsec now).
Proof.
  intros H. unfold time.Add, DefaultDuration. cbv zeta.
  change (Z.quot time.Hour 1000000000) with 3600.
  change (Z.rem time.Hour 1000000000) with 0. rewrite Z.add_0_r.
  destruct (Z.leb_spec 1000000000 (time.nsec now)); [lia|].
  destruct (Z.ltb_spec (time.nsec now) 0); [lia|]. reflexivity.
Qed.

(** The refreshed expiration is one hour after the refresh. *)
Lemma Unix_Add_DefaultDuration (now : time.Time) :
  0 <= time.nsec now < 1000000000 ->
  min_int64 <= time.sec now -> time.sec now + 3600 <= max_int64 ->
  time.Unix (time.Add now DefaultDuration) = time.Unix now + 3600.
Proof.
  intros H L U. rewrite (Add_DefaultDuration now H). unfold time.Unix. cbn [time.sec].
  rewrite !wrap64_small; unfold min_int64, max_int64 in *; lia.
Qed.

(** ** The parts of a cookie *)

(** The bytes before the first [c] hold no [c]. *)
Lemma before_no (c : byte) (s : bytes) : has_byte c (before_first c s) = false.
Proof.
  induction s as [|b s IH]; [reflexivity|].
  cbn [before_first]. destruct (byte_eqb c b) eqn:E; [reflexivity|].
  cbn [has_byte existsb]. rewrite E. exact IH.
Qed.

Lemma before_whole (c : byte) (s : bytes) : has_byte c s = false -> before_first c s = s.
Proof.
  induction s as [|b s IH]; [reflexivity|].
  cbn [has_byte existsb]. intros H. apply orb_false_iff in H as [H1 H2].
  cbn [before_first]. rewrite H1, (IH H2). reflexivity.
Qed.

(** What follows a [c] does not count. *)
Lemma before_app (c : byte) (s t : bytes) : before_first c (s ++ c :: t) = before_first c s.
Proof.
  induction s as [|b s IH].
  - cbn. rewrite byte_eqb_refl. reflexivity.
  - cbn [app before_first]. rewrite IH. reflexivity.
Qed.

Lemma before_split (c : byte) (s : bytes) :
  has_byte c s = true -> exists t, s = before_first c s ++ c :: t.
Proof.
  induction s as [|b s IH]; [discriminate|].
  cbn [has_byte existsb before_first]. destruct (byte_eqb c b) eqn:E.
  - intros _. apply byte_eqb_eq in E as ->. exists s. reflexivity.
  - cbn [orb]. intros H. destruct (IH H) as [t Ht]. exists t.
    cbn [app]. rewrite <- Ht. reflexivity.
Qed.

Lemma before_has (c : byte) (s t : bytes) :
  has_byte c s = true -> before_first c (s ++ t) = before_first c s.
Proof.
  intros H. destruct (before_split c s H) as [r E].
  rewrite E at 1. rewrite <- app_assoc. cbn [app]. rewrite before_app.
  apply before_whole, before_no.
Qed.

Lemma before_repeat (c : byte) (s : bytes) (k : nat) :
  before_first c (s ++ repeat c k) = before_first c s.
Proof.
  destruct k as [|k]; [rewrite List.app_nil_r; reflexivity|].
  cbn [repeat]. apply before_app.
Qed.

(** The first dash of a cookie that goes on with a dash after [s]. *)
Lemma Index_before (c : byte) (s t : bytes) :
  strings.Index (s ++ c :: t) [c] = len (before_first c s).
Proof.
  destruct (has_byte c s) eqn:H.
  - destruct (before_split c s H) as [r E]. rewrite E at 1.
    rewrite <- app_assoc. cbn [app]. apply Index_single_app, before_no.
  - rewrite (before_whole c s H). apply Index_single_app, H.
Qed.

Lemma slice_to_before (c : byte) (s t : bytes) :
  slice_to (s ++ t) (len (before_first c s)) = Some (before_first c s).
Proof.
  destruct (has_byte c s) eqn:H.
  - destruct (before_split c s H) as [r E]. rewrite E at 1.
    rewrite <- app_assoc. apply slice_to_app.
  - rewrite (before_whole c s H). apply slice_to_app.
Qed.

(** A list that holds [c], cut at its last [c]. *)
Lemma LastIndex_split (c : byte) (s : bytes) :
  has_byte c s = true ->
  exists p t, s = p ++ c :: t /\ has_byte c t = false.
Proof.
  induction s as [|b s IH]; [discriminate|].
  destruct (has_byte c s) eqn:H.
  - intros _. destruct (IH eq_refl) as (p & t & E & N).
    exists (b :: p), t. rewrite E. split; [reflexivity | exact N].
  - cbn [has_byte existsb]. fold (has_byte c s). rewrite H, orb_false_r.
    intros E. apply byte_eqb_eq in E as <-. exists [], s. split; [reflexivity | exact H].
Qed.

(** A cookie has no dash, or one dash only, its first byte, or a byte
    before its last dash. *)
Lemma cookie_parts (cookie : bytes) :
  has_byte x2d cookie = false \/
  (exists sig, cookie = x2d :: sig /\ has_byte x2d sig = false) \/
  (exists signed b sig, cookie = signed ++ b :: x2d :: sig /\ has_byte x2d sig = false).
Proof.
  destruct (has_byte x2d cookie) eqn:H; [right | left; reflexivity].
  destruct (LastIndex_split x2d cookie H) as (p & t & E & N).
  destruct (rev p) as [|b q] eqn:Q.
  - left. exists t. apply (f_equal (@rev byte)) in Q. rewrite rev_involutive in Q.
    subst p. split; [exact E | exact N].
  - right. exists (rev q), b, t. apply (f_equal (@rev byte)) in Q.
    rewrite rev_involutive in Q. cbn [rev] in Q. subst p.
    rewrite <- app_assoc in E. split; [exact E | exact N].
Qed.

(** [Parse] on a cookie with a byte before its last dash, by its parts:
    the bytes before the first dash are the payload, the bytes before that
    byte are what is signed, the bytes after the last dash are the
    signature. *)
Lemma Parse_parts (now : time.Time) (secret signed : bytes) (b : byte) (sig : bytes) :
  has_byte x2d sig = false ->
  Parse now secret (signed ++ b :: x2d :: sig) =
  match base64.DecodeString base64.RawURLEncoding (before_first x2d (signed ++ [b])) with
  | None => Err ErrBase64
  | Some txtBytes =>
      match hex.DecodeString sig with
      | None => Err ErrSignature
      | Some sigBytes =>
          if checkHmac signed sigBytes secret
          then afterSignature now txtBytes
          else Err ErrBadSignature
      end
  end.
Proof.
  intros N.
  assert (E : signed ++ b :: x2d :: sig = (signed ++ [b]) ++ x2d :: sig)
    by (rewrite <- app_assoc; reflexivity).
  assert (I : strings.Index (signed ++ b :: x2d :: sig) dash
              = len (before_first x2d (signed ++ [b]))).
  { rewrite E. apply Index_before. }
  assert (L : strings.LastIndex (signed ++ b :: x2d :: sig) dash = len signed + 1).
  { rewrite E. change dash with [x2d]. rewrite (LastIndex_single_app x2d _ _ N).
    rewrite len_app. reflexivity. }
  apply Parse_steps.
  - rewrite I. pose proof (len_nonneg (before_first x2d (signed ++ [b]))). lia.
  - rewrite I, E. apply slice_to_before.
  - rewrite L. replace (len signed + 1 - 1) with (len signed) by lia. apply slice_to_app.
  - rewrite L, E. replace (len signed + 1) with (len (signed ++ [b]))
      by (rewrite len_app; reflexivity).
    change (x2d :: sig) with ([x2d] ++ sig). rewrite app_assoc.
    replace (len (signed ++ [b]) + 1) with (len ((signed ++ [b]) ++ [x2d]))
      by (rewrite (len_app (signed ++ [b])); reflexivity).
    apply slice_from_app.
Qed.

Lemma afterSignature_cases (now : time.Time) (txtBytes : bytes) :
  afterSignature now txtBytes = Err ErrJSON \/
  afterSignature now txtBytes = Err ErrExpired \/
  exists c, afterSignature now txtBytes = Ok c.
Proof.
  unfold afterSignature. destruct (json.Unmarshal txtBytes _) as [c|e]; [|tauto].
  destruct (wrap64 _ <? 0); eauto.
Qed.

(** [Parse] on a cookie with a byte before its last dash neither panics
    nor reports a malformed cookie. *)
Lemma Parse_parts_outcome (now : time.Time) (secret signed : bytes) (b : byte) (sig : bytes) :
  has_byte x2d sig = false ->
  Parse now secret (signed ++ b :: x2d :: sig) <> Panic /\
  Parse now secret (signed ++ b :: x2d :: sig) <> Err ErrNoDashes /\
  Parse now secret (signed ++ b :: x2d :: sig) <> Err ErrNoSignature.
Proof.
  intros N. rewrite (Parse_parts now secret signed b sig N).
  destruct (base64.DecodeString _ _) as [txtBytes|]; [|repeat split; discriminate].
  destruct (hex.DecodeString sig) as [sigBytes|]; [|repeat split; discriminate].
  destruct (checkHmac signed sigBytes secret); [|repeat split; discriminate].
  destruct (afterSignature_cases now txtBytes) as [E|[E|[c E]]]; rewrite E;
    repeat split; discriminate.
Qed.

(** What of [Parse] does not depend on the clock: an outcome, or the
    payload that [afterSignature] is given. *)
Lemma Parse_before_clock (secret cookie : bytes) :
  (exists o, (forall t, Parse t secret cookie = o) /\
             o <> Err ErrExpired /\ forall c, o <> Ok c) \/
  (exists txtBytes, forall t, Parse t secret cookie = afterSignature t txtBytes).
Proof.
  destruct (cookie_parts cookie) as [H | [(sig & -> & N) | (signed & b & sig & -> & N)]].
  - left. exists (Err ErrNoDashes). split; [|split; discriminate].
    intros t. apply Parse_no_dashes, Index_single_none, H.
  - left. exists Panic. split; [|split; discriminate].
    intros t. apply Parse_panics_on_leading_dash, N.
  - destruct (base64.DecodeString base64.RawURLEncoding (before_first x2d (signed ++ [b])))
      as [txtBytes|] eqn:B.
    + destruct (hex.DecodeString sig) as [sigBytes|] eqn:X.
      * destruct (checkHmac signed sigBytes secret) eqn:M.
        -- right. exists txtBytes. intros t.
           rewrite (Parse_parts t secret signed b sig N), B, X, M. reflexivity.
        -- left. exists (Err ErrBadSignature). split; [|split; discriminate].
           intros t. rewrite (Parse_parts t secret signed b sig N), B, X, M. reflexivity.
      * left. exists (Err ErrSignature). split; [|split; discriminate].
        intros t. rewrite (Parse_parts t secret signed b sig N), B, X. reflexivity.
    + left. exists (Err ErrBase64). split; [|split; discriminate].
      intros t. rewrite (Parse_parts t secret signed b sig N), B. reflexivity.
Qed.

(** ** The signature *)

(** [checkHmac] holds of one tag only. *)
Lemma checkHmac_true (message messageMAC key : bytes) :
  checkHmac message messageMAC key = true <-> messageMAC = rfc2104_hmac_sha1 key message.
Proof. unfold checkHmac. rewrite hmac_Equal_eq, hmac_rfc2104. tauto. Qed.

(** Induction by pairs. *)
Lemma list_ind2 {A} (P : list A -> Prop) :
  P [] -> (forall a, P [a]) -> (forall a b l, P l -> P (a :: b :: l)) ->
  forall l, P l.
Proof.
  intros H0 H1 H2.
  fix IH 1. intros [|a [|b l]].
  - exact H0.
  - apply H1.
  - apply H2, IH.
Qed.

(** Two digits give one byte. *)
Lemma hex_DecodeString_length (s out : bytes) :
  hex.DecodeString s = Some out -> length s = (2 * length out)%nat.
Proof.
  revert out. induction s as [| a | a b s IH] using list_ind2; intros out.
  - intros [= <-]. reflexivity.
  - discriminate.
  - cbn [hex.DecodeString].
    destruct (hex.fromHexChar a); [|discriminate].
    destruct (hex.fromHexChar b); [|discriminate].
    destruct (hex.DecodeString s) as [o|]; [|discriminate].
    intros [= <-]. cbn [length]. rewrite (IH o eq_refl). lia.
Qed.

(** The decoder reads upper case as lower case. *)
Lemma fromHexChar_upperhex (c : byte) :
  hex.fromHexChar (upperhex c) = hex.fromHexChar c.
Proof. destruct c; reflexivity. Qed.

Lemma hex_DecodeString_upperhex (s : bytes) :
  hex.DecodeString (map upperhex s) = hex.DecodeString s.
Proof.
  induction s as [| a | a b s IH] using list_ind2; try reflexivity.
  cbn [map hex.DecodeString]. rewrite !fromHexChar_upperhex, IH. reflexivity.
Qed.

Lemma has_byte_upperhex (s : bytes) :
  has_byte x2d (map upperhex s) = has_byte x2d s.
Proof.
  induction s as [|c s IH]; [reflexivity|].
  cbn [map has_byte existsb]. fold (has_byte x2d (map upperhex s)). fold (has_byte x2d s).
  rewrite IH. f_equal. destruct c; reflexivity.
Qed.

(** ** The cookies of the wire format *)

Lemma token_parts (msg key : bytes) :
  token msg key = text msg ++ x2d :: x2d :: hex.EncodeToString (tag msg key).
Proof. reflexivity. Qed.

Lemma tag_no_dash (msg key : bytes) :
  has_byte x2d (hex.EncodeToString (tag msg key)) = false.
Proof. apply lowerhex_not_dash, hex_EncodeToString_lowerhex. Qed.

Lemma before_text (msg : bytes) :
  before_first x2d (text msg ++ [x2d]) = before_first x2d (raw64 msg).
Proof.
  rewrite before_app. unfold text. apply before_repeat.
Qed.

(** One character after the text of whole groups is no base64 text. *)
Lemma decode_one_more (src : bytes) (b : byte) :
  (length src mod 3 = 0)%nat ->
  base64.decode base64.RawURLEncoding (raw64 src ++ [b]) = None.
Proof.
  unfold raw64.
  induction src as [| a0 | a0 a1 | a0 a1 a2 l IH] using list_ind3; intros H.
  - reflexivity.
  - discriminate H.
  - discriminate H.
  - pose proof (byteZ_range a0) as H0. pose proof (byteZ_range a1) as H1.
    pose proof (byteZ_range a2) as H2.
    destruct (sextets (byteZ a0) (byteZ a1) (byteZ a2) H0 H1 H2)
      as [(R0 & R1 & R2 & R3) _].
    cbv zeta in *.
    cbn [base64.EncodeToString app base64.decode].
    rewrite !decodeMap_digit by assumption.
    rewrite IH; [reflexivity|].
    cbn [length] in H.
    replace (S (S (S (length l)))) with (length l + 1 * 3)%nat in H by lia.
    rewrite Nat.Div0.mod_add in H. exact H.
Qed.

Lemma filter_app_one (s : bytes) (b : byte) :
  forallb urlsafe s = true ->
  filter (fun c => negb (base64.isNewline c)) (s ++ [b]) =
  if base64.isNewline b then s else s ++ [b].
Proof.
  intros H. rewrite filter_app, (filter_newline_urlsafe s H). cbn [filter].
  destruct (base64.isNewline b); cbn [negb]; [apply List.app_nil_r | reflexivity].
Qed.

Lemma has_byte_repeat (c : byte) (k : nat) :
  has_byte c (repeat c k) = false -> k = 0%nat.
Proof.
  destruct k as [|k]; [reflexivity|]. cbn [repeat has_byte existsb].
  rewrite byte_eqb_refl. discriminate.
Qed.

Lemma pad_count_zero (src : bytes) : pad_count src = 0%nat -> (length src mod 3 = 0)%nat.
Proof.
  unfold pad_count. pose proof (Nat.mod_upper_bound (length src) 3 ltac:(lia)) as B.
  destruct (length src mod 3)%nat as [|[|[|r]]]; [reflexivity | discriminate | discriminate | lia].
Qed.

(** The payload that [Parse] reads when the bytes signed are the text of
    [msg]: whatever byte follows the text, it is the payload of the token
    of [msg], if it is read at all. *)
Lemma payload_of_text (msg : bytes) (b : byte) (payload : bytes) :
  base64.DecodeString base64.RawURLEncoding (before_first x2d (text msg ++ [b]))
    = Some payload ->
  base64.DecodeString base64.RawURLEncoding (before_first x2d (raw64 msg)) = Some payload.
Proof.
  destruct (has_byte x2d (text msg)) eqn:D.
  - rewrite (before_has x2d (text msg) [b] D). unfold text.
    rewrite before_repeat. tauto.
  - destruct (byte_eqb x2d b) eqn:B.
    + apply byte_eqb_eq in B as <-. rewrite before_text. tauto.
    + unfold text in *.
      rewrite has_byte_app in D. apply orb_false_iff in D as [D1 D2].
      apply has_byte_repeat in D2. rewrite D2 in *. cbn [repeat]. rewrite List.app_nil_r.
      rewrite (before_whole x2d (raw64 msg) D1).
      rewrite before_whole
        by (rewrite has_byte_app, D1; cbn [has_byte existsb]; rewrite B; reflexivity).
      unfold base64.DecodeString at 1.
      rewrite filter_app_one by apply EncodeToString_urlsafe.
      destruct (base64.isNewline b).
      * fold (raw64 msg). rewrite decode_EncodeToString, DecodeString_EncodeToString. tauto.
      * rewrite (decode_one_more msg b (pad_count_zero msg D2)). discriminate.
Qed.

(** ** The type errors of Unmarshal *)




(** ** The key *)

(** [Parse] uses the key through [hmac.New] only. *)
Lemma Parse_hmac_New (now : time.Time) (key1 key2 cookie : bytes) :
  hmac.New key1 = hmac.New key2 -> Parse now key1 cookie = Parse now key2 cookie.
Proof. intros H. unfold Parse, checkHmac. rewrite H. reflexivity. Qed.

(** A key longer than the block is replaced by its hash. *)
Lemma hmac_New_long (key : bytes) :
  64 < len key -> hmac.New key = hmac.New (sha1.Sum key).
Proof.
  intros H. unfold hmac.New. change sha1.BlockSize with 64.
  destruct (Z.ltb_spec 64 (len key)); [|lia].
  unfold len. rewrite sha1_Sum_length. reflexivity.
Qed.

(** A key shorter than the block is filled with zeros. *)
Lemma hmac_New_zero (key : bytes) :
  len key < 64 -> hmac.New (key ++ [x00]) = hmac.New key.
Proof.
  intros H. unfold hmac.New. change sha1.BlockSize with 64.
  rewrite len_app. change (len [x00]) with 1.
  destruct (Z.ltb_spec 64 (len key + 1)); [lia|].
  destruct (Z.ltb_spec 64 (len key)); [lia|].
  rewrite length_app. cbn [length]. unfold len in H.
  replace (Z.to_nat 64 - length key)%nat with (S (Z.to_nat 64 - (length key + 1)))%nat by lia.
  cbn [repeat]. rewrite <- app_assoc. reflexivity.
Qed.

(** ** Runs of the model *)

(** FIPS 180 and RFC 2202 test vectors. *)
Example sha1_abc :
  hex.EncodeToString (sha1.Sum (str "abc")) = str "a9993e364706816aba3e25717850c26c9cd0d89d".
Proof. vm_compute. reflexivity. Qed.

Example sha1_two_blocks :
  hex.EncodeToString
    (sha1.Sum (str "abcdbcdecdefdefgefghfghighijhijkijkljklmklmnlmnomnopnopq"))
  = str "84983e441c3bd26ebaae4aa1f95129e5e54670f1".
Proof. vm_compute. reflexivity. Qed.

Example hmac_sha1_rfc2202 :
  hex.EncodeToString (rfc2104_hmac_sha1 (str "Jefe") (str "what do ya want for nothing?"))
  = str "effcdf6ae5eb2fa2d27416d5f184df9c259a7c79".
Proof. vm_compute. reflexivity. Qed.

(** The cookies of the examples are cookies of the wire format. *)
Example alice_token_text : alice_token = token alice_payload (str "s3cret").
Proof. vm_compute. reflexivity. Qed.

Example expires_only_token_text :
  expires_only_token = token payload_expires_only (str "s3cret").
Proof. vm_compute. reflexivity. Qed.

Example expired_token_text :
  expired_token = token (json.Marshal expired_cookie) (str "s3cret").
Proof. vm_compute. reflexivity. Qed.

Lemma Parse_alice_token :
  Parse (at_second 1500000000) (str "s3cret") alice_token = Ok alice_cookie.
Proof. vm_compute. reflexivity. Qed.

Example Parse_alice_token_wrong_key :
  Parse (at_second 1500000000) (str "wrong") alice_token = Err ErrBadSignature.
Proof. vm_compute. reflexivity. Qed.

(** The tag is the tag of the encoded text, not of the payload. *)
Example tag_of_text :
  tag alice_payload (str "s3cret") <> rfc2104_hmac_sha1 (str "s3cret") alice_payload.
Proof. vm_compute. discriminate. Qed.

(** An identity with [~] where the third byte of a group stands: the
    text of the cookie holds the digit [-], and [Parse] reads a truncated
    payload. *)
Example Parse_token_tilde :
  strings.Index (raw64 (json.Marshal (mkCookie (str "~") 2000000000 GeneratedByStr))) dash
    = 19 /\
  Parse (at_second 1500000000) (str "s3cret")
        (token (json.Marshal (mkCookie (str "~") 2000000000 GeneratedByStr)) (str "s3cret"))
  = Err ErrJSON.
Proof. split; vm_compute; reflexivity. Qed.

(** A cookie that ends at its only dash. *)
Example Parse_trailing_dash (now : time.Time) (secret : bytes) :
  Parse now secret (str "YQ-") = Err ErrBadSignature.
Proof.
  rewrite (Parse_steps now secret (str "YQ-") (str "YQ") (str "Y") []);
    [| discriminate | reflexivity | reflexivity | reflexivity].
  change (base64.DecodeString base64.RawURLEncoding (str "YQ")) with (Some (str "a")).
  change (hex.DecodeString []) with (Some (@nil byte)).
  cbv iota. rewrite checkHmac_empty. reflexivity.
Qed.

(** The cookie of [alice] with its signature in upper case is another
    string. *)
Example uppercase_token_differs :
  text alice_payload ++ str "--"
    ++ map upperhex (hex.EncodeToString (tag alice_payload (str "s3cret")))
  <> alice_token.
Proof. vm_compute. discriminate. Qed.

(* ================================================================= *)
(** * The claims *)

(** ** C1: round trip of New and Parse *)

(** C1 fails in the code: [New] asks [base64] for the URL encoding padded
    with [-], a character of that alphabet; [WithPadding] panics, whatever
    the identity, the expiration and the key, so no token is made and
    [Parse] is not reached. *)
Theorem roundtrip_panics (now : time.Time) (user : bytes) (expiration : time.Time)
        (key : bytes) :
  New user expiration key = None /\
  roundtrip now user expiration key = Panic.
Proof.
  assert (N : New user expiration key = None) by apply New_None.
  split; [exact N|]. unfold roundtrip. rewrite N. reflexivity.
Qed.

(** ** C2: Parse and run-time faults *)

(** C2 fails in the code: on the cookie [-], whatever the secret and the
    time, [Parse] evaluates [cookie[:-1]] and panics. *)
Theorem Parse_panics_on_lone_dash (now : time.Time) (secret : bytes) :
  Parse now secret (str "-") = Panic.
Proof.
  apply Parse_Panic_iff.
  change (str "-") with ([] ++ x2d :: []). change dash with [x2d].
  apply (LastIndex_single_app x2d [] []). reflexivity.
Qed.

(** ** C3: the wire format *)

(** C3 fails in the code: [-] is the digit 62 of the URL alphabet, so
    [RawURLEncoding.WithPadding('-')] panics with "padding contained in
    alphabet", and [NewRawMsg] and [New] return no token, whatever the
    message, the identity, the expiration and the key. *)
Theorem NewRawMsg_panics (msg key user : bytes) (expiration : time.Time) :
  base64.decodeMap base64.RawURLEncoding x2d = Some 62 /\
  base64.WithPadding base64.RawURLEncoding (Some x2d) = None /\
  NewRawMsg msg key = None /\
  New user expiration key = None.
Proof.
  destruct WithPadding_dash as [D W].
  split; [exact D|]. split; [exact W|].
  split; [apply NewRawMsg_None | apply New_None].
Qed.

(** ** C4: the boundary of the expiration *)

(** C4.  For a cookie whose two dashes are found, whose slices decode and
    whose signature is that of the text, carrying the record [c]: [Parse]
    returns [c] when the clock reads [ExpiresUnix c], and the error of
    expiry when the clock reads one second more; and under a clock that is
    not before the epoch, the error of expiry is returned only when the
    expiration is strictly before the clock. *)
Theorem Parse_expiration_boundary (now : time.Time)
        (secret cookie base64Txt base64TxtSig base64Sig txtBytes sigBytes : bytes)
        (c : Cookie) :
  strings.Index cookie dash <> -1 ->
  slice_to cookie (strings.Index cookie dash) = Some base64Txt ->
  slice_to cookie (strings.LastIndex cookie dash - 1) = Some base64TxtSig ->
  slice_from cookie (strings.LastIndex cookie dash + 1) = Some base64Sig ->
  base64.DecodeString base64.RawURLEncoding base64Txt = Some txtBytes ->
  hex.DecodeString base64Sig = Some sigBytes ->
  checkHmac base64TxtSig sigBytes secret = true ->
  json.Unmarshal txtBytes (mkCookie [] 0 []) = inl c ->
  (time.Unix now = ExpiresUnix c -> Parse now secret cookie = Ok c) /\
  (time.Unix now - 1 = ExpiresUnix c -> Parse now secret cookie = Err ErrExpired) /\
  (0 <= time.Unix now -> Parse now secret cookie = Err ErrExpired ->
   ExpiresUnix c < time.Unix now).
Proof.
  intros I S1 S2 S3 B H M U.
  rewrite (Parse_steps now secret cookie _ _ _ I S1 S2 S3), B, H, M.
  apply afterSignature_boundary, U.
Qed.

(** The token of [alice], read at the second it expires. *)
Lemma Parse_expiration_boundary_witness :
  strings.Index alice_token dash <> -1 /\
  slice_to alice_token (strings.Index alice_token dash) = Some (raw64 alice_payload) /\
  slice_to alice_token (strings.LastIndex alice_token dash - 1) = Some (text alice_payload) /\
  slice_from alice_token (strings.LastIndex alice_token dash + 1)
    = Some (hex.EncodeToString (tag alice_payload (str "s3cret"))) /\
  base64.DecodeString base64.RawURLEncoding (raw64 alice_payload) = Some alice_payload /\
  hex.DecodeString (hex.EncodeToString (tag alice_payload (str "s3cret")))
    = Some (tag alice_payload (str "s3cret")) /\
  checkHmac (text alice_payload) (tag alice_payload (str "s3cret")) (str "s3cret") = true /\
  json.Unmarshal alice_payload (mkCookie [] 0 []) = inl alice_cookie /\
  ((time.Unix (at_second 2000000000) = ExpiresUnix alice_cookie ->
    Parse (at_second 2000000000) (str "s3cret") alice_token = Ok alice_cookie) /\
   (time.Unix (at_second 2000000000) - 1 = ExpiresUnix alice_cookie ->
    Parse (at_second 2000000000) (str "s3cret") alice_token = Err ErrExpired) /\
   (0 <= time.Unix (at_second 2000000000) ->
    Parse (at_second 2000000000) (str "s3cret") alice_token = Err ErrExpired ->
    ExpiresUnix alice_cookie < time.Unix (at_second 2000000000))).
Proof.
  assert (H1 : strings.Index alice_token dash <> -1) by (vm_compute; discriminate).
  assert (H2 : slice_to alice_token (strings.Index alice_token dash)
               = Some (raw64 alice_payload)) by (vm_compute; reflexivity).
  assert (H3 : slice_to alice_token (strings.LastIndex alice_token dash - 1)
               = Some (text alice_payload)) by (vm_compute; reflexivity).
  assert (H4 : slice_from alice_token (strings.LastIndex alice_token dash + 1)
               = Some (hex.EncodeToString (tag alice_payload (str "s3cret"))))
    by (vm_compute; reflexivity).
  assert (H5 : base64.DecodeString base64.RawURLEncoding (raw64 alice_payload)
               = Some alice_payload) by (vm_compute; reflexivity).
  assert (H6 : hex.DecodeString (hex.EncodeToString (tag alice_payload (str "s3cret")))
               = Some (tag alice_payload (str "s3cret"))) by (vm_compute; reflexivity).
  assert (H7 : checkHmac (text alice_payload) (tag alice_payload (str "s3cret"))
                 (str "s3cret") = true) by (vm_compute; reflexivity).
  assert (H8 : json.Unmarshal alice_payload (mkCookie [] 0 []) = inl alice_cookie)
    by (vm_compute; reflexivity).
  refine (conj H1 (conj H2 (conj H3 (conj H4 (conj H5 (conj H6 (conj H7 (conj H8 _)))))))).
  exact (Parse_expiration_boundary (at_second 2000000000) (str "s3cret") alice_token
           _ _ _ _ _ alice_cookie H1 H2 H3 H4 H5 H6 H7 H8).
Defined.

(** ** C5: Refresh *)

(** C5 fails in the code: [Refresh] calls [New], which panics in
    [WithPadding], whatever the record, the key and the time; there is no
    token to read. *)
Theorem Refresh_panics (now later : time.Time) (c : Cookie) (key : bytes) :
  Refresh now c key = None /\
  refreshed now later c key = Panic.
Proof.
  assert (N : Refresh now c key = None) by (unfold Refresh; apply New_None).
  split; [exact N|]. unfold refreshed. rewrite N. reflexivity.
Qed.

(** ** C6: malformed cookies *)

(** C6 fails in the code: the cookie [YQ--] ends at its last dash, and
    whatever the secret and the time [Parse] reports a bad signature, not
    a malformed cookie. *)
Theorem Parse_empty_signature (now : time.Time) (secret : bytes) :
  Parse now secret (str "YQ--") = Err ErrBadSignature.
Proof.
  rewrite (Parse_steps now secret (str "YQ--") (str "YQ") (str "YQ") []);
    [| discriminate | reflexivity | reflexivity | reflexivity].
  change (base64.DecodeString base64.RawURLEncoding (str "YQ")) with (Some (str "a")).
  change (hex.DecodeString []) with (Some (@nil byte)).
  cbv iota. rewrite checkHmac_empty. reflexivity.
Qed.

(** ** C7: fields that the payload omits *)

(** C7, as amended.  For a cookie whose two dashes are found, whose slices
    decode and whose signature is that of the text, and whose payload is a
    JSON object that [Unmarshal] reads without a type error: [Parse]
    returns the record read, or the error of expiry when its expiration
    has passed, and never the error of the payload's format; a field that
    no member of the object names has the zero value of its type. *)
Theorem Parse_absent_fields (now : time.Time)
        (secret cookie base64Txt base64TxtSig base64Sig txtBytes sigBytes : bytes)
        (members : list (bytes * json.value)) (c : Cookie) :
  strings.Index cookie dash <> -1 ->
  slice_to cookie (strings.Index cookie dash) = Some base64Txt ->
  slice_to cookie (strings.LastIndex cookie dash - 1) = Some base64TxtSig ->
  slice_from cookie (strings.LastIndex cookie dash + 1) = Some base64Sig ->
  base64.DecodeString base64.RawURLEncoding base64Txt = Some txtBytes ->
  hex.DecodeString base64Sig = Some sigBytes ->
  checkHmac base64TxtSig sigBytes secret = true ->
  json.parse txtBytes = json.POk (json.JObject members) [] ->
  json.object members (mkCookie [] 0 [], None) = (c, None) ->
  Parse now secret cookie =
    (if wrap64 (ExpiresUnix c - time.Unix now) <? 0 then Err ErrExpired else Ok c) /\
  Parse now secret cookie <> Err ErrJSON /\
  (absent json.FAuthData members -> AuthData c = []) /\
  (absent json.FExpiresUnix members -> ExpiresUnix c = 0) /\
  (absent json.FBy members -> By c = []).
Proof.
  intros I S1 S2 S3 B H M P O.
  assert (E : Parse now secret cookie =
              if wrap64 (ExpiresUnix c - time.Unix now) <? 0 then Err ErrExpired else Ok c).
  { rewrite (Parse_steps now secret cookie _ _ _ I S1 S2 S3), B, H, M.
    unfold afterSignature, json.Unmarshal. rewrite P, O. reflexivity. }
  split; [exact E|]. split.
  - rewrite E. destruct (wrap64 (ExpiresUnix c - time.Unix now) <? 0); discriminate.
  - repeat split; intros A;
      pose proof (object_absent _ members (mkCookie [] 0 [], None) A) as G;
      rewrite O in G; cbn in G; congruence.
Qed.

(** The signed token of the payload that holds the expiration alone. *)
Lemma Parse_absent_fields_witness :
  strings.Index expires_only_token dash <> -1 /\
  slice_to expires_only_token (strings.Index expires_only_token dash)
    = Some (raw64 payload_expires_only) /\
  slice_to expires_only_token (strings.LastIndex expires_only_token dash - 1)
    = Some (text payload_expires_only) /\
  slice_from expires_only_token (strings.LastIndex expires_only_token dash + 1)
    = Some (hex.EncodeToString (tag payload_expires_only (str "s3cret"))) /\
  base64.DecodeString base64.RawURLEncoding (raw64 payload_expires_only)
    = Some payload_expires_only /\
  hex.DecodeString (hex.EncodeToString (tag payload_expires_only (str "s3cret")))
    = Some (tag payload_expires_only (str "s3cret")) /\
  checkHmac (text payload_expires_only) (tag payload_expires_only (str "s3cret"))
            (str "s3cret") = true /\
  json.parse payload_expires_only =
    json.POk (json.JObject [(str "expires", json.JNumber (str "2000000000"))]) [] /\
  json.object [(str "expires", json.JNumber (str "2000000000"))] (mkCookie [] 0 [], None)
    = (mkCookie [] 2000000000 [], None) /\
  (Parse (at_second 1500000000) (str "s3cret") expires_only_token =
     (if wrap64 (ExpiresUnix (mkCookie [] 2000000000 []) - time.Unix (at_second 1500000000))
         <? 0
      then Err ErrExpired else Ok (mkCookie [] 2000000000 [])) /\
   Parse (at_second 1500000000) (str "s3cret") expires_only_token <> Err ErrJSON /\
   (absent json.FAuthData [(str "expires", json.JNumber (str "2000000000"))] ->
    AuthData (mkCookie [] 2000000000 []) = []) /\
   (absent json.FExpiresUnix [(str "expires", json.JNumber (str "2000000000"))] ->
    ExpiresUnix (mkCookie [] 2000000000 []) = 0) /\
   (absent json.FBy [(str "expires", json.JNumber (str "2000000000"))] ->
    By (mkCookie [] 2000000000 []) = [])).
Proof.
  assert (H1 : strings.Index expires_only_token dash <> -1) by (vm_compute; discriminate).
  assert (H2 : slice_to expires_only_token (strings.Index expires_only_token dash)
               = Some (raw64 payload_expires_only)) by (vm_compute; reflexivity).
  assert (H3 : slice_to expires_only_token (strings.LastIndex expires_only_token dash - 1)
               = Some (text payload_expires_only)) by (vm_compute; reflexivity).
  assert (H4 : slice_from expires_only_token (strings.LastIndex expires_only_token dash + 1)
               = Some (hex.EncodeToString (tag payload_expires_only (str "s3cret"))))
    by (vm_compute; reflexivity).
  assert (H5 : base64.DecodeString base64.RawURLEncoding (raw64 payload_expires_only)
               = Some payload_expires_only) by (vm_compute; reflexivity).
  assert (H6 : hex.DecodeString
                 (hex.EncodeToString (tag payload_expires_only (str "s3cret")))
               = Some (tag payload_expires_only (str "s3cret")))
    by (vm_compute; reflexivity).
  assert (H7 : checkHmac (text payload_expires_only)
                 (tag payload_expires_only (str "s3cret")) (str "s3cret") = true)
    by (vm_compute; reflexivity).
  assert (H8 : json.parse payload_expires_only =
    json.POk (json.JObject [(str "expires", json.JNumber (str "2000000000"))]) [])
    by (vm_compute; reflexivity).
  assert (H9 : json.object [(str "expires", json.JNumber (str "2000000000"))]
                 (mkCookie [] 0 [], None) = (mkCookie [] 2000000000 [], None))
    by (vm_compute; reflexivity).
  refine (conj H1 (conj H2 (conj H3 (conj H4 (conj H5 (conj H6 (conj H7
            (conj H8 (conj H9 _))))))))).
  exact (Parse_absent_fields (at_second 1500000000) (str "s3cret") expires_only_token
           _ _ _ _ _ _ _ H1 H2 H3 H4 H5 H6 H7 H8 H9).
Defined.

(** C7, as stated, fails on a correctly signed token whose payload has
    neither identity nor issuer: it is accepted, both fields empty. *)
Lemma Parse_payload_without_identity :
  Parse (at_second 1500000000) (str "s3cret") expires_only_token =
  Ok (mkCookie [] 2000000000 []).
Proof. vm_compute. reflexivity. Qed.

(** ** C8: the order of the checks *)

(** C8, as amended.  [Parse] decodes the base64 text of the payload, then
    the hexadecimal text of the signature, then checks the signature, and
    reads the JSON text last.  So, for a cookie that holds a dash and does
    not start with its only dash, the three segments are in range, and: a
    payload segment that is no base64 text is reported as such, whatever
    the signature; a signature that is no hexadecimal text is reported next;
    and where both decode and the tag is not the tag of the signed text, a
    bad signature is reported, whatever the decoded payload is. *)
Theorem Parse_bad_signature (now : time.Time) (secret cookie : bytes) :
  strings.Index cookie dash <> -1 ->
  strings.LastIndex cookie dash <> 0 ->
  exists base64Txt base64TxtSig base64Sig : bytes,
    slice_to cookie (strings.Index cookie dash) = Some base64Txt /\
    slice_to cookie (strings.LastIndex cookie dash - 1) = Some base64TxtSig /\
    slice_from cookie (strings.LastIndex cookie dash + 1) = Some base64Sig /\
    (base64.DecodeString base64.RawURLEncoding base64Txt = None ->
     Parse now secret cookie = Err ErrBase64) /\
    (forall txtBytes,
       base64.DecodeString base64.RawURLEncoding base64Txt = Some txtBytes ->
       hex.DecodeString base64Sig = None ->
       Parse now secret cookie = Err ErrSignature) /\
    (forall txtBytes sigBytes,
       base64.DecodeString base64.RawURLEncoding base64Txt = Some txtBytes ->
       hex.DecodeString base64Sig = Some sigBytes ->
       checkHmac base64TxtSig sigBytes secret = false ->
       Parse now secret cookie = Err ErrBadSignature).
Proof.
  intros I L.
  pose proof (Index_le_LastIndex x2d cookie) as Hle.
  pose proof (LastIndex_lt_len cookie) as Hlt.
  pose proof (Index_single_range x2d cookie) as Hi.
  change [x2d] with dash in *.
  assert (S1 : slice_to cookie (strings.Index cookie dash)
               = Some (firstn (Z.to_nat (strings.Index cookie dash)) cookie))
    by (apply slice_to_Some; lia).
  assert (S2 : slice_to cookie (strings.LastIndex cookie dash - 1)
               = Some (firstn (Z.to_nat (strings.LastIndex cookie dash - 1)) cookie))
    by (apply slice_to_Some; lia).
  assert (S3 : slice_from cookie (strings.LastIndex cookie dash + 1)
               = Some (skipn (Z.to_nat (strings.LastIndex cookie dash + 1)) cookie))
    by (apply slice_from_Some; lia).
  eexists _, _, _. split; [exact S1|]. split; [exact S2|]. split; [exact S3|].
  rewrite (Parse_steps now secret cookie _ _ _ I S1 S2 S3).
  repeat split.
  - intros B. rewrite B. reflexivity.
  - intros txtBytes B H. rewrite B, H. reflexivity.
  - intros txtBytes sigBytes B H M. rewrite B, H, M. reflexivity.
Qed.

(** The cookie [YQ--00]: its payload is the letter [a], which is no JSON
    text, and its tag is one zero byte. *)
Lemma Parse_bad_signature_witness :
  strings.Index (str "YQ--00") dash <> -1 /\
  strings.LastIndex (str "YQ--00") dash <> 0 /\
  exists base64Txt base64TxtSig base64Sig : bytes,
    slice_to (str "YQ--00") (strings.Index (str "YQ--00") dash) = Some base64Txt /\
    slice_to (str "YQ--00") (strings.LastIndex (str "YQ--00") dash - 1)
      = Some base64TxtSig /\
    slice_from (str "YQ--00") (strings.LastIndex (str "YQ--00") dash + 1)
      = Some base64Sig /\
    (base64.DecodeString base64.RawURLEncoding base64Txt = None ->
     Parse (at_second 1500000000) (str "s3cret") (str "YQ--00") = Err ErrBase64) /\
    (forall txtBytes,
       base64.DecodeString base64.RawURLEncoding base64Txt = Some txtBytes ->
       hex.DecodeString base64Sig = None ->
       Parse (at_second 1500000000) (str "s3cret") (str "YQ--00") = Err ErrSignature) /\
    (forall txtBytes sigBytes,
       base64.DecodeString base64.RawURLEncoding base64Txt = Some txtBytes ->
       hex.DecodeString base64Sig = Some sigBytes ->
       checkHmac base64TxtSig sigBytes (str "s3cret") = false ->
       Parse (at_second 1500000000) (str "s3cret") (str "YQ--00") = Err ErrBadSignature).
Proof.
  assert (H1 : strings.Index (str "YQ--00") dash <> -1) by (vm_compute; discriminate).
  assert (H2 : strings.LastIndex (str "YQ--00") dash <> 0) by (vm_compute; discriminate).
  refine (conj H1 (conj H2 _)).
  exact (Parse_bad_signature (at_second 1500000000) (str "s3cret") (str "YQ--00") H1 H2).
Defined.

(** C8, as stated, fails on the cookie [!--00]: its tag is not the tag of
    its text, its payload segment is no base64 text, and [Parse] reports
    the latter. *)
Lemma Parse_undecodable_payload_first :
  checkHmac (str "!") [x00] (str "s3cret") = false /\
  Parse (at_second 1500000000) (str "s3cret") (str "!--00") = Err ErrBase64.
Proof. split; vm_compute; reflexivity. Qed.

(** ** C10: the wrapping subtraction *)

(** C10.  The test of expiry is made on the wrapped difference.  A cookie
    that [Parse] accepts at some time with the record [c] is, at the time
    [now], rejected as expired when the expiration minus the clock is
    negative and an [int64], and accepted, although the expiration is
    before the clock, when that difference is below the least [int64].
    So it is with the cookie of a record that expires at second -2^63,
    signed with [s3cret]: it is rejected as expired at second 0, and at
    second 1 it is accepted, the difference wrapping to the greatest
    [int64]. *)
Theorem Parse_accepts_long_expired :
  (forall (t0 now : time.Time) (secret cookie : bytes) (c : Cookie),
     Parse t0 secret cookie = Ok c ->
     (min_int64 <= ExpiresUnix c - time.Unix now < 0 ->
      Parse now secret cookie = Err ErrExpired) /\
     (ExpiresUnix c - time.Unix now < min_int64 ->
      ExpiresUnix c < time.Unix now /\
      0 <= wrap64 (ExpiresUnix c - time.Unix now) /\
      Parse now secret cookie = Ok c)) /\
  ExpiresUnix expired_cookie = min_int64 /\
  Parse (at_second 0) (str "s3cret") expired_token = Err ErrExpired /\
  Parse (at_second 1) (str "s3cret") expired_token = Ok expired_cookie /\
  0 < time.Unix (at_second 1) /\
  ExpiresUnix expired_cookie - time.Unix (at_second 1) < min_int64 /\
  wrap64 (ExpiresUnix expired_cookie - time.Unix (at_second 1)) = max_int64.
Proof.
  split.
  - intros t0 now secret cookie c P.
    rewrite (Parse_Ok_any_time t0 now secret cookie c P).
    pose proof (Unix_range now) as N.
    destruct (Parse_Ok_Unmarshal t0 secret cookie c P) as [txtBytes U].
    assert (R : min_int64 <= ExpiresUnix c <= max_int64).
    { apply (Unmarshal_range txtBytes (mkCookie [] 0 []) c); [|exact U].
      cbn. unfold min_int64, max_int64. lia. }
    split.
    + intros D. rewrite wrap64_small by (unfold max_int64 in *; lia).
      destruct (Z.ltb_spec (ExpiresUnix c - time.Unix now) 0); [reflexivity | lia].
    + intros D.
      assert (W : wrap64 (ExpiresUnix c - time.Unix now)
                  = ExpiresUnix c - time.Unix now + 2 ^ 64).
      { unfold wrap64, min_int64, max_int64 in *.
        replace (ExpiresUnix c - time.Unix now + 2 ^ 63)
          with (ExpiresUnix c - time.Unix now + 2 ^ 63 + 2 ^ 64 + (-1) * 2 ^ 64) by lia.
        rewrite Z.mod_add by lia. rewrite Z.mod_small by lia. lia. }
      rewrite W. unfold min_int64, max_int64 in *.
      split; [lia|]. split; [lia|].
      destruct (Z.ltb_spec (ExpiresUnix c - time.Unix now + 2 ^ 64) 0); [lia | reflexivity].
  - repeat split; vm_compute; reflexivity.
Qed.

(* ================================================================= *)
(** * Further properties of the package *)

(** ** The outcomes of Parse *)

(** X1.  [Parse] reports a cookie without dashes exactly when the
    cookie holds no [-]: no other cookie gets this error. *)
Theorem Parse_no_dashes_iff (now : time.Time) (secret cookie : bytes) :
  Parse now secret cookie = Err ErrNoDashes <-> has_byte x2d cookie = false.
Proof.
  split.
  - intros P.
    destruct (cookie_parts cookie) as [H | [(sig & -> & N) | (signed & b & sig & -> & N)]].
    + exact H.
    + rewrite (Parse_panics_on_leading_dash now secret sig N) in P. discriminate P.
    + destruct (Parse_parts_outcome now secret signed b sig N) as (_ & Q & _).
      contradiction.
  - intros H. apply Parse_no_dashes, Index_single_none, H.
Qed.

(** X2.  The test [len(cookie) < lastDashPos+1] is false of every
    cookie, and [Parse] never returns the error of a missing signature. *)
Theorem Parse_no_signature_unreachable (now : time.Time) (secret cookie : bytes) :
  (len cookie <? strings.LastIndex cookie dash + 1) = false /\
  Parse now secret cookie <> Err ErrNoSignature.
Proof.
  split; [|apply Parse_never_no_signature].
  apply Z.ltb_ge, LastIndex_lt_len.
Qed.

(** X3.  [Parse] panics exactly on the cookies that start with their
    only dash: [cookie[:lastDashPos-1]] is then [cookie[:-1]]. *)
Theorem Parse_panics_iff (now : time.Time) (secret cookie : bytes) :
  Parse now secret cookie = Panic <->
  exists sig, cookie = x2d :: sig /\ has_byte x2d sig = false.
Proof.
  split.
  - intros P.
    destruct (cookie_parts cookie) as [H | [Q | (signed & b & sig & -> & N)]].
    + apply (Index_single_none x2d) in H.
      rewrite (Parse_no_dashes now secret cookie H) in P. discriminate P.
    + exact Q.
    + destruct (Parse_parts_outcome now secret signed b sig N) as (Q & _).
      contradiction.
  - intros (sig & -> & N). apply Parse_panics_on_leading_dash, N.
Qed.

(** X4.  Every cookie is of one of three shapes, and the shape gives the
    outcome.  Without a dash, the error of no dashes.  Starting with its
    only dash, a panic.  Otherwise the cookie is [signed], one byte [b], the
    last dash and [sig]: the payload is the base64 text before the first
    dash of [signed ++ [b]], the signature is the hexadecimal text [sig], the
    bytes signed are [signed], and the errors come in the order base64,
    hexadecimal, signature, then JSON and expiry. *)
Theorem Parse_by_parts (now : time.Time) (secret cookie : bytes) :
  (has_byte x2d cookie = false /\ Parse now secret cookie = Err ErrNoDashes) \/
  (exists sig,
     cookie = x2d :: sig /\ has_byte x2d sig = false /\
     Parse now secret cookie = Panic) \/
  (exists signed b sig,
     cookie = signed ++ b :: x2d :: sig /\ has_byte x2d sig = false /\
     Parse now secret cookie =
     match base64.DecodeString base64.RawURLEncoding (before_first x2d (signed ++ [b])) with
     | None => Err ErrBase64
     | Some txtBytes =>
         match hex.DecodeString sig with
         | None => Err ErrSignature
         | Some sigBytes =>
             if checkHmac signed sigBytes secret
             then afterSignature now txtBytes
             else Err ErrBadSignature
         end
     end).
Proof.
  destruct (cookie_parts cookie) as [H | [(sig & E & N) | (signed & b & sig & E & N)]].
  - left. split; [exact H|]. apply Parse_no_dashes, Index_single_none, H.
  - right. left. exists sig. subst cookie. repeat split; [exact N|].
    apply Parse_panics_on_leading_dash, N.
  - right. right. exists signed, b, sig. subst cookie. repeat split; [exact N|].
    apply Parse_parts, N.
Qed.

(** X5.  A cookie that [Parse] accepts is some [signed], one byte, a dash
    and forty characters without a dash that are the hexadecimal text of
    the HMAC-SHA1 tag of [signed] under the secret; the record returned is
    read from the base64 text before the first dash. *)
Theorem Parse_accepts_only_signed (now : time.Time) (secret cookie : bytes) (c : Cookie) :
  Parse now secret cookie = Ok c ->
  exists signed b sig payload,
    cookie = signed ++ b :: x2d :: sig /\
    has_byte x2d sig = false /\
    hex.DecodeString sig = Some (rfc2104_hmac_sha1 secret signed) /\
    length sig = 40%nat /\
    base64.DecodeString base64.RawURLEncoding (before_first x2d (signed ++ [b])) = Some payload /\
    json.Unmarshal payload (mkCookie [] 0 []) = inl c.
Proof.
  intros P.
  destruct (cookie_parts cookie) as [H | [(sig & -> & N) | (signed & b & sig & -> & N)]].
  - apply (Index_single_none x2d) in H.
    rewrite (Parse_no_dashes now secret cookie H) in P. discriminate P.
  - rewrite (Parse_panics_on_leading_dash now secret sig N) in P. discriminate P.
  - rewrite (Parse_parts now secret signed b sig N) in P.
    destruct (base64.DecodeString _ _) as [payload|] eqn:B; [|discriminate P].
    destruct (hex.DecodeString sig) as [sigBytes|] eqn:X; [|discriminate P].
    destruct (checkHmac signed sigBytes secret) eqn:M; [|discriminate P].
    apply checkHmac_true in M. subst sigBytes.
    exists signed, b, sig, payload. repeat split; try assumption.
    + rewrite (hex_DecodeString_length sig _ X).
      unfold rfc2104_hmac_sha1. rewrite sha1_Sum_length. reflexivity.
    + apply (afterSignature_Ok now), P.
Qed.

(** The token of [alice], read before it expires. *)
Lemma Parse_accepts_only_signed_witness :
  Parse (at_second 1500000000) (str "s3cret") alice_token = Ok alice_cookie /\
  exists signed b sig payload,
    alice_token = signed ++ b :: x2d :: sig /\
    has_byte x2d sig = false /\
    hex.DecodeString sig = Some (rfc2104_hmac_sha1 (str "s3cret") signed) /\
    length sig = 40%nat /\
    base64.DecodeString base64.RawURLEncoding (before_first x2d (signed ++ [b])) = Some payload /\
    json.Unmarshal payload (mkCookie [] 0 []) = inl alice_cookie.
Proof.
  assert (H : Parse (at_second 1500000000) (str "s3cret") alice_token = Ok alice_cookie)
    by (vm_compute; reflexivity).
  refine (conj H _).
  exact (Parse_accepts_only_signed (at_second 1500000000) (str "s3cret") alice_token
           alice_cookie H).
Defined.

(** ** The signature *)

(** X6.  [checkHmac] holds of a message, a tag and a key exactly when
    the tag is the HMAC-SHA1 of the message under the key, which has twenty
    bytes. *)
Theorem checkHmac_iff (message messageMAC key : bytes) :
  (checkHmac message messageMAC key = true <->
   messageMAC = rfc2104_hmac_sha1 key message) /\
  length (rfc2104_hmac_sha1 key message) = 20%nat.
Proof.
  split; [apply checkHmac_true|]. unfold rfc2104_hmac_sha1. apply sha1_Sum_length.
Qed.

(** X7.  The signature is read without regard to the case of its letters:
    with the hexadecimal letters after its last dash in upper case, a
    cookie has the outcome it has with them in lower case. *)
Theorem Parse_uppercase_signature (now : time.Time) (secret signed : bytes) (b : byte)
        (sig : bytes) :
  has_byte x2d sig = false ->
  Parse now secret (signed ++ b :: x2d :: map upperhex sig) =
  Parse now secret (signed ++ b :: x2d :: sig).
Proof.
  intros N.
  assert (N' : has_byte x2d (map upperhex sig) = false)
    by (rewrite has_byte_upperhex; exact N).
  rewrite (Parse_parts now secret signed b _ N), (Parse_parts now secret signed b _ N').
  rewrite hex_DecodeString_upperhex. reflexivity.
Qed.

(** The cookie of [alice], accepted in both spellings. *)
Lemma Parse_uppercase_signature_witness :
  has_byte x2d (hex.EncodeToString (tag alice_payload (str "s3cret"))) = false /\
  Parse (at_second 1500000000) (str "s3cret")
    (text alice_payload ++ x2d :: x2d ::
       map upperhex (hex.EncodeToString (tag alice_payload (str "s3cret")))) =
  Parse (at_second 1500000000) (str "s3cret")
    (text alice_payload ++ x2d :: x2d ::
       hex.EncodeToString (tag alice_payload (str "s3cret"))).
Proof.
  assert (H : has_byte x2d (hex.EncodeToString (tag alice_payload (str "s3cret"))) = false)
    by (vm_compute; reflexivity).
  refine (conj H _).
  exact (Parse_uppercase_signature (at_second 1500000000) (str "s3cret")
           (text alice_payload) x2d
           (hex.EncodeToString (tag alice_payload (str "s3cret"))) H).
Defined.

(** X8.  The byte before the last dash is not looked at: when [signed]
    holds a dash, any byte in the place of the first dash of the separator
    gives the outcome of the cookie with a dash there. *)
Theorem Parse_byte_before_last_dash (now : time.Time) (secret signed : bytes) (b : byte)
        (sig : bytes) :
  has_byte x2d signed = true ->
  has_byte x2d sig = false ->
  Parse now secret (signed ++ b :: x2d :: sig) =
  Parse now secret (signed ++ x2d :: x2d :: sig).
Proof.
  intros H N. rewrite !(Parse_parts now secret signed _ sig N).
  rewrite !(before_has x2d signed _ H). reflexivity.
Qed.

(** The token of the payload [{"expires":2000000000}], whose text ends in
    padding, with [X-] for its separator. *)
Lemma Parse_byte_before_last_dash_witness :
  has_byte x2d (text payload_expires_only) = true /\
  has_byte x2d (hex.EncodeToString (tag payload_expires_only (str "s3cret"))) = false /\
  Parse (at_second 1500000000) (str "s3cret")
    (text payload_expires_only ++ x58 :: x2d ::
       hex.EncodeToString (tag payload_expires_only (str "s3cret"))) =
  Parse (at_second 1500000000) (str "s3cret")
    (text payload_expires_only ++ x2d :: x2d ::
       hex.EncodeToString (tag payload_expires_only (str "s3cret"))).
Proof.
  assert (H1 : has_byte x2d (text payload_expires_only) = true)
    by (vm_compute; reflexivity).
  assert (H2 : has_byte x2d
                 (hex.EncodeToString (tag payload_expires_only (str "s3cret"))) = false)
    by (vm_compute; reflexivity).
  refine (conj H1 (conj H2 _)).
  exact (Parse_byte_before_last_dash (at_second 1500000000) (str "s3cret")
           (text payload_expires_only) x58
           (hex.EncodeToString (tag payload_expires_only (str "s3cret"))) H1 H2).
Defined.

(** ** The cookies of the wire format *)

(** X9.  [Parse] of a cookie of the wire format under the key of its tag
    passes the signature check whatever the payload, and reads as payload
    the base64 text up to its first [-], be it a digit or the padding. *)
Theorem Parse_token_first_dash (now : time.Time) (msg key : bytes) :
  Parse now key (token msg key) =
  match base64.DecodeString base64.RawURLEncoding (before_first x2d (raw64 msg)) with
  | None => Err ErrBase64
  | Some txtBytes => afterSignature now txtBytes
  end.
Proof.
  rewrite token_parts, (Parse_parts now key _ _ _ (tag_no_dash msg key)).
  rewrite before_text, hex_DecodeString_EncodeToString.
  unfold tag. rewrite checkHmac_Sum. reflexivity.
Qed.

(** X10.  Under a key that gives the text another tag, [Parse] of a cookie
    of the wire format reports a bad signature, or a base64 error when the
    text before its first dash does not decode; it returns no record. *)
Theorem Parse_token_other_key (now : time.Time) (msg key key' : bytes) :
  rfc2104_hmac_sha1 key' (text msg) <> rfc2104_hmac_sha1 key (text msg) ->
  Parse now key' (token msg key) =
  match base64.DecodeString base64.RawURLEncoding (before_first x2d (raw64 msg)) with
  | None => Err ErrBase64
  | Some _ => Err ErrBadSignature
  end.
Proof.
  intros D.
  rewrite token_parts, (Parse_parts now key' _ _ _ (tag_no_dash msg key)).
  rewrite before_text, hex_DecodeString_EncodeToString.
  destruct (base64.DecodeString _ _); [|reflexivity].
  destruct (checkHmac (text msg) (tag msg key) key') eqn:M; [|reflexivity].
  apply checkHmac_true in M. exfalso. apply D. symmetry. exact M.
Qed.

(** The payload of [alice] signed with [s3cret], read with [wrong]. *)
Lemma Parse_token_other_key_witness :
  rfc2104_hmac_sha1 (str "wrong") (text alice_payload)
    <> rfc2104_hmac_sha1 (str "s3cret") (text alice_payload) /\
  Parse (at_second 1500000000) (str "wrong") (token alice_payload (str "s3cret")) =
  match base64.DecodeString base64.RawURLEncoding (before_first x2d (raw64 alice_payload)) with
  | None => Err ErrBase64
  | Some _ => Err ErrBadSignature
  end.
Proof.
  assert (H : rfc2104_hmac_sha1 (str "wrong") (text alice_payload)
              <> rfc2104_hmac_sha1 (str "s3cret") (text alice_payload))
    by (vm_compute; discriminate).
  refine (conj H _).
  exact (Parse_token_other_key (at_second 1500000000) alice_payload (str "s3cret")
           (str "wrong") H).
Defined.

(** X14.  [Parse] does not look at the issuer: the cookie of the wire
    format for the payload of any record whose two strings are bytes below
    0x80 other than [~] comes back as that record, its [By] included, until
    it expires. *)
Theorem Parse_any_issuer (now : time.Time) (c : Cookie) (key : bytes) :
  forallb tame (AuthData c) = true ->
  forallb tame (By c) = true ->
  min_int64 <= ExpiresUnix c <= max_int64 ->
  min_int64 <= ExpiresUnix c - time.Unix now <= max_int64 ->
  Parse now key (token (json.Marshal c) key) =
  if ExpiresUnix c <? time.Unix now then Err ErrExpired else Ok c.
Proof.
  intros A B R W.
  rewrite Parse_token by (apply raw64_dashless, Marshal_dashless; assumption).
  unfold afterSignature. rewrite (Unmarshal_Marshal c _ R).
  rewrite !ToValidUTF8_Valid by (apply valid_tame; [lia | assumption]).
  cbn [ExpiresUnix]. rewrite wrap64_small by exact W.
  destruct c as [a e b]. cbn [AuthData ExpiresUnix By] in *.
  destruct (Z.ltb_spec (e - time.Unix now) 0);
    destruct (Z.ltb_spec e (time.Unix now)); try lia; reflexivity.
Qed.

(** A record under the issuer [perl]. *)
Lemma Parse_any_issuer_witness :
  forallb tame (AuthData foreign_cookie) = true /\
  forallb tame (By foreign_cookie) = true /\
  min_int64 <= ExpiresUnix foreign_cookie <= max_int64 /\
  min_int64 <= ExpiresUnix foreign_cookie - time.Unix (at_second 1500000000) <= max_int64 /\
  Parse (at_second 1500000000) (str "s3cret")
        (token (json.Marshal foreign_cookie) (str "s3cret")) =
  if ExpiresUnix foreign_cookie <? time.Unix (at_second 1500000000)
  then Err ErrExpired else Ok foreign_cookie.
Proof.
  assert (H1 : forallb tame (AuthData foreign_cookie) = true) by (vm_compute; reflexivity).
  assert (H2 : forallb tame (By foreign_cookie) = true) by (vm_compute; reflexivity).
  assert (H3 : min_int64 <= ExpiresUnix foreign_cookie <= max_int64)
    by (vm_compute; split; discriminate).
  assert (H4 : min_int64 <= ExpiresUnix foreign_cookie - time.Unix (at_second 1500000000)
               <= max_int64) by (vm_compute; split; discriminate).
  refine (conj H1 (conj H2 (conj H3 (conj H4 _)))).
  exact (Parse_any_issuer (at_second 1500000000) foreign_cookie (str "s3cret") H1 H2 H3 H4).
Defined.

(** ** The expiration *)

(** X15.  The expiration of a record that [Parse] returns is an [int64]
    that is not before the clock, unless it is more than 2^63 seconds
    before it. *)
Theorem Parse_accepted_expiration (now : time.Time) (secret cookie : bytes) (c : Cookie) :
  Parse now secret cookie = Ok c ->
  min_int64 <= ExpiresUnix c <= max_int64 /\
  (0 <= ExpiresUnix c - time.Unix now <= max_int64 \/
   ExpiresUnix c - time.Unix now < min_int64).
Proof.
  intros P.
  destruct (Parse_Ok_Unmarshal now secret cookie c P) as [txtBytes U].
  assert (R : min_int64 <= ExpiresUnix c <= max_int64).
  { apply (Unmarshal_range txtBytes (mkCookie [] 0 []) c); [|exact U].
    cbn. unfold min_int64, max_int64. lia. }
  split; [exact R|].
  pose proof (Parse_Ok_any_time now now secret cookie c P) as Q. rewrite P in Q.
  destruct (Z.ltb_spec (wrap64 (ExpiresUnix c - time.Unix now)) 0) as [W|W];
    [discriminate Q|].
  pose proof (Unix_range now) as N.
  destruct (Z_lt_le_dec (ExpiresUnix c - time.Unix now) min_int64) as [B|B]; [right; exact B|].
  left. destruct (Z_le_gt_dec (ExpiresUnix c - time.Unix now) max_int64) as [A|A].
  - rewrite wrap64_small in W by lia. lia.
  - exfalso. unfold wrap64, min_int64, max_int64 in *.
    replace (ExpiresUnix c - time.Unix now + 2 ^ 63)
      with (ExpiresUnix c - time.Unix now - 2 ^ 63 + 1 * 2 ^ 64) in W by lia.
    rewrite Z.mod_add in W by lia. rewrite Z.mod_small in W by lia. lia.
Qed.

(** The token of [alice], read before it expires. *)
Lemma Parse_accepted_expiration_witness :
  Parse (at_second 1500000000) (str "s3cret") alice_token = Ok alice_cookie /\
  min_int64 <= ExpiresUnix alice_cookie <= max_int64 /\
  (0 <= ExpiresUnix alice_cookie - time.Unix (at_second 1500000000) <= max_int64 \/
   ExpiresUnix alice_cookie - time.Unix (at_second 1500000000) < min_int64).
Proof.
  assert (H : Parse (at_second 1500000000) (str "s3cret") alice_token = Ok alice_cookie)
    by (vm_compute; reflexivity).
  refine (conj H _).
  exact (Parse_accepted_expiration (at_second 1500000000) (str "s3cret") alice_token
           alice_cookie H).
Defined.

(** X16.  The clock decides between acceptance and expiry, and nothing
    else: an error other than expiry, and a panic, are the same at every
    time; a cookie accepted at one time is at any other time accepted with
    the same record or expired; a cookie expired at one time is at any
    other time expired or accepted. *)
Theorem Parse_clock (t0 t1 : time.Time) (secret cookie : bytes) :
  (forall e, e <> ErrExpired ->
             Parse t0 secret cookie = Err e -> Parse t1 secret cookie = Err e) /\
  (Parse t0 secret cookie = Panic -> Parse t1 secret cookie = Panic) /\
  (forall c, Parse t0 secret cookie = Ok c ->
             Parse t1 secret cookie =
             if wrap64 (ExpiresUnix c - time.Unix t1) <? 0 then Err ErrExpired else Ok c) /\
  (Parse t0 secret cookie = Err ErrExpired ->
   Parse t1 secret cookie = Err ErrExpired \/ exists c, Parse t1 secret cookie = Ok c).
Proof.
  destruct (Parse_before_clock secret cookie) as [(o & E & NE & NO) | (txtBytes & E)].
  - rewrite !E. repeat split.
    + intros e _ H. exact H.
    + intros H. exact H.
    + intros c H. destruct (NO c H).
    + intros H. contradiction.
  - rewrite !E. unfold afterSignature.
    destruct (json.Unmarshal txtBytes (mkCookie [] 0 [])) as [c|e'].
    + destruct (wrap64 (ExpiresUnix c - time.Unix t0) <? 0) eqn:W0; repeat split.
      * intros e N [= <-]. contradiction.
      * discriminate.
      * discriminate.
      * intros _. destruct (wrap64 (ExpiresUnix c - time.Unix t1) <? 0); eauto.
      * discriminate.
      * discriminate.
      * intros c' [= <-]. reflexivity.
      * discriminate.
    + repeat split; try discriminate. intros e _ H. exact H.
Qed.

(** ** The payload *)



(** ** The key *)

(** X20.  A key of more than 64 bytes and its SHA-1 digest are one key:
    [checkHmac] answers the same under both, and [Parse] gives every cookie
    the same outcome. *)
Theorem key_longer_than_block (now : time.Time) (key cookie message messageMAC : bytes) :
  64 < len key ->
  checkHmac message messageMAC key = checkHmac message messageMAC (sha1.Sum key) /\
  Parse now key cookie = Parse now (sha1.Sum key) cookie.
Proof.
  intros H. split.
  - unfold checkHmac. rewrite (hmac_New_long key H). reflexivity.
  - apply Parse_hmac_New, hmac_New_long, H.
Qed.

(** The key of 65 bytes [a], on the cookie of [alice]. *)
Lemma key_longer_than_block_witness :
  64 < len long_key /\
  checkHmac (text alice_payload) (tag alice_payload long_key) long_key =
  checkHmac (text alice_payload) (tag alice_payload long_key) (sha1.Sum long_key) /\
  Parse (at_second 1500000000) long_key alice_token =
  Parse (at_second 1500000000) (sha1.Sum long_key) alice_token.
Proof.
  assert (H : 64 < len long_key) by (vm_compute; reflexivity).
  refine (conj H _).
  exact (key_longer_than_block (at_second 1500000000) long_key alice_token
           (text alice_payload) (tag alice_payload long_key) H).
Defined.

(** X21.  A key of less than 64 bytes and the same key followed by a zero
    byte are one key, for [checkHmac] and for [Parse]. *)
Theorem key_with_zero_byte (now : time.Time) (key cookie message messageMAC : bytes) :
  len key < 64 ->
  checkHmac message messageMAC (key ++ [x00]) = checkHmac message messageMAC key /\
  Parse now (key ++ [x00]) cookie = Parse now key cookie.
Proof.
  intros H. split.
  - unfold checkHmac. rewrite (hmac_New_zero key H). reflexivity.
  - apply Parse_hmac_New, hmac_New_zero, H.
Qed.

(** The key [s3cret], on the cookie of [alice]. *)
Lemma key_with_zero_byte_witness :
  len (str "s3cret") < 64 /\
  checkHmac (text alice_payload) (tag alice_payload (str "s3cret")) (str "s3cret" ++ [x00]) =
  checkHmac (text alice_payload) (tag alice_payload (str "s3cret")) (str "s3cret") /\
  Parse (at_second 1500000000) (str "s3cret" ++ [x00]) alice_token =
  Parse (at_second 1500000000) (str "s3cret") alice_token.
Proof.
  assert (H : len (str "s3cret") < 64) by (vm_compute; reflexivity).
  refine (conj H _).
  exact (key_with_zero_byte (at_second 1500000000) (str "s3cret") alice_token
           (text alice_payload) (tag alice_payload (str "s3cret")) H).
Defined.

(** ** The bytes signed *)

(** X22.  The record follows from the bytes signed: a cookie that [Parse]
    accepts and whose bytes before the byte before its last dash are the
    text of a payload returns the record that the cookie of the wire format
    for that payload returns, whatever that byte and whatever the spelling
    of the signature. *)
Theorem Parse_signed_text (now : time.Time) (msg key : bytes) (b : byte) (sig : bytes)
        (c : Cookie) :
  has_byte x2d sig = false ->
  Parse now key (text msg ++ b :: x2d :: sig) = Ok c ->
  Parse now key (token msg key) = Ok c.
Proof.
  intros N P. rewrite (Parse_parts now key (text msg) b sig N) in P.
  destruct (base64.DecodeString _ _) as [payload|] eqn:B; [|discriminate P].
  destruct (hex.DecodeString sig) as [sigBytes|]; [|discriminate P].
  destruct (checkHmac (text msg) sigBytes key); [|discriminate P].
  apply payload_of_text in B.
  rewrite token_parts, (Parse_parts now key _ _ _ (tag_no_dash msg key)).
  rewrite before_text, B, hex_DecodeString_EncodeToString.
  unfold tag. rewrite checkHmac_Sum. exact P.
Qed.

(** The token of the payload [{"expires":2000000000}] with [X-] for its
    separator. *)
Lemma Parse_signed_text_witness :
  has_byte x2d (hex.EncodeToString (tag payload_expires_only (str "s3cret"))) = false /\
  Parse (at_second 1500000000) (str "s3cret")
    (text payload_expires_only ++ x58 :: x2d ::
       hex.EncodeToString (tag payload_expires_only (str "s3cret"))) =
  Ok (mkCookie [] 2000000000 []) /\
  Parse (at_second 1500000000) (str "s3cret")
    (token payload_expires_only (str "s3cret")) = Ok (mkCookie [] 2000000000 []).
Proof.
  assert (H1 : has_byte x2d
                 (hex.EncodeToString (tag payload_expires_only (str "s3cret"))) = false)
    by (vm_compute; reflexivity).
  assert (H2 : Parse (at_second 1500000000) (str "s3cret")
                 (text payload_expires_only ++ x58 :: x2d ::
                    hex.EncodeToString (tag payload_expires_only (str "s3cret"))) =
               Ok (mkCookie [] 2000000000 [])) by (vm_compute; reflexivity).
  refine (conj H1 (conj H2 _)).
  exact (Parse_signed_text (at_second 1500000000) payload_expires_only (str "s3cret") x58
           (hex.EncodeToString (tag payload_expires_only (str "s3cret")))
           (mkCookie [] 2000000000 []) H1 H2).
Defined.
